(** * Word alignment and scoring engine (server/levenshteinAnalysis.ts)

    A shallow embedding of the pronunciation scoring engine:
    [normalizeText], [splitIntoWords], [calculateWordSimilarity],
    [alignWords] and [calculateLevenshteinScores], followed by the
    properties established about them.

    Conventions of the embedding.
    - A JavaScript string is the list of its UTF-16 code units
      ([jsstring]); [length] is the [.length] of the source.
    - Integer-valued Numbers (lengths, indices, edit distances, similarity
      scores and their sums) are integers: they are exact in double
      precision below 2^53.
    - The inexact Number operations ([/], [-] and [*] in
      [calculateWordSimilarity], [/] in the overall score) round their
      exact result to the nearest double, ties to even ([Num.round53]).
      The exponent range of doubles is not modelled; every quantity met
      here lies well inside it.
    - [console.log] calls have no influence on results and are left out.
    - The runtime built-ins [String.prototype.normalize('NFC')] and
      [String.prototype.toLowerCase] depend on the Unicode tables of the
      engine; the functions that call them take them as parameters. *)

From Stdlib Require Import List ZArith NArith QArith Qround Qpower Lia Lqa Bool Arith.
From Stdlib Require Import Permutation Sorted Ascii.
From Stdlib Require String.
Import String.StringSyntax.
Delimit Scope string_scope with string.
From Stdlib Require Import Floats.SpecFloat.
Import ListNotations.

Local Open Scope Z_scope.

(* ================================================================== *)
(** * Strings *)

Definition char16 := N.
Definition jsstring := list char16.

(** An ASCII literal as a [jsstring]. *)
Definition js (s : String.string) : jsstring :=
  map N_of_ascii (String.list_ascii_of_string s).

(* ================================================================== *)
(** * Double-precision arithmetic *)

Module Num.

Definition pow2 (e : Z) : Q := Qpower (2 # 1) e.

(** For [x > 0], the integer [k] with [2^k <= x < 2^(k+1)]. *)
Definition binade (x : Q) : Z :=
  let k := Z.log2 (Qnum x) - Z.log2 (Zpos (Qden x)) in
  if Qle_bool (pow2 k) x then k else k - 1.

(** Nearest integer, ties to the even one. *)
Definition round_half_even (x : Q) : Z :=
  let f := Qfloor x in
  match Qcompare (x - inject_Z f) (1 # 2) with
  | Lt => f
  | Gt => f + 1
  | Eq => if Z.even f then f else f + 1
  end.

(** Nearest number with a 53-bit significand, for [x > 0]. *)
Definition round53_pos (x : Q) : Q :=
  let e := binade x - 52 in
  Qred (inject_Z (round_half_even (x / pow2 e)) * pow2 e).

Definition round53 (x : Q) : Q :=
  match Qcompare x 0 with
  | Eq => 0%Q
  | Gt => round53_pos x
  | Lt => Qopp (round53_pos (Qopp x))
  end.

(** The Number operators [/], [-], [*]. *)
Definition div (x y : Q) : Q := round53 (x / y).
Definition sub (x y : Q) : Q := round53 (x - y).
Definition mul (x y : Q) : Q := round53 (x * y).

(** [Math.max] of two Numbers, [Math.round] (nearest integer, ties
    towards +infinity). *)
Definition Math_max (x y : Q) : Q := if Qle_bool x y then y else x.
Definition Math_round (x : Q) : Z := Qfloor (x + (1 # 2)).

(** The same positive arithmetic through the IEEE 754 binary64
    specification of the Standard Library, for comparison. *)
Definition of_Z64 (z : Z) : spec_float := binary_normalize 53 1024 z 0 false.

Definition SF2Q (f : spec_float) : Q :=
  match f with
  | S754_finite s m e =>
      let v := (inject_Z (Zpos m) * pow2 e)%Q in
      if s then Qopp v else v
  | _ => 0%Q
  end.

End Num.

(* ================================================================== *)
(** * Edit distance *)

Definition min3 (a b c : nat) : nat := Nat.min a (Nat.min b c).

(** Modelled from the spec: [levenshtein.get] of the package
    fast-levenshtein, which the source imports and which is not part of
    the repository. It is the edit distance with unit-cost insertions,
    deletions and substitutions over the code units of the two strings. *)
Fixpoint levenshtein_get (s t : jsstring) {struct s} : nat :=
  match s with
  | [] => length t
  | a :: s' =>
      (fix inner (t : jsstring) : nat :=
         match t with
         | [] => length s
         | b :: t' =>
             min3 (S (levenshtein_get s' t))
                  (S (inner t'))
                  ((if N.eqb a b then 0 else 1) + levenshtein_get s' t')%nat
         end) t
  end.

(** Edit scripts read from left to right, with their cost. *)
Inductive EditScript : jsstring -> jsstring -> nat -> Prop :=
| es_done : EditScript [] [] 0
| es_keep a s t n : EditScript s t n -> EditScript (a :: s) (a :: t) n
| es_subst a b s t n : EditScript s t n -> EditScript (a :: s) (b :: t) (S n)
| es_delete a s t n : EditScript s t n -> EditScript (a :: s) t (S n)
| es_insert b s t n : EditScript s t n -> EditScript s (b :: t) (S n).

(* ================================================================== *)
(** * calculateWordSimilarity *)

Definition calculateWordSimilarity (word1 word2 : jsstring) : Z :=
  let distance := Z.of_nat (levenshtein_get word1 word2) in
  let maxLength := Z.max (Z.of_nat (length word1)) (Z.of_nat (length word2)) in
  if maxLength =? 0 then 100
  else
    let similarity :=
      Num.Math_max 0
        (Num.mul (Num.sub 1 (Num.div (inject_Z distance) (inject_Z maxLength)))
                 100) in
    Num.Math_round similarity.

(** The value of the similarity expression over the rationals, rounded to
    the nearest integer with ties upwards. *)
Definition exactSimilarity (distance maxLength : Z) : Z :=
  Num.Math_round
    (Num.Math_max 0 ((1 - inject_Z distance / inject_Z maxLength) * 100))%Q.

(** [Math.round(Math.max(0, (1 - distance / maxLength) * 100))] in double
    precision, as a function of the two integers. *)
Definition similarityExpr (distance maxLength : Z) : Z :=
  Num.Math_round
    (Num.Math_max 0
       (Num.mul (Num.sub 1 (Num.div (inject_Z distance) (inject_Z maxLength))) 100)).

(** [(1 - distance / maxLength) * 100] through [Num], and through the
    binary64 operations of the Standard Library. *)
Definition roundedProduct (distance maxLength : Z) : Q :=
  Num.mul (Num.sub 1 (Num.div (inject_Z distance) (inject_Z maxLength))) 100.

Definition binary64Product (distance maxLength : Z) : Q :=
  Num.SF2Q
    (SFmul 53 1024
       (SFsub 53 1024 (Num.of_Z64 1)
          (SFdiv 53 1024 (Num.of_Z64 distance) (Num.of_Z64 maxLength)))
       (Num.of_Z64 100)).

Definition binary64Quotient (total count : Z) : Q :=
  Num.SF2Q (SFdiv 53 1024 (Num.of_Z64 total) (Num.of_Z64 count)).

(** Pairs [(distance, maxLength)] with [distance <= maxLength <= bound]. *)
Definition ratiosUpTo (bound : nat) : list (nat * nat) :=
  flat_map (fun L => map (fun d => (d, L)) (seq 0 (S L))) (seq 1 bound).

Definition agreesWithBinary64 (bound : nat) : bool :=
  forallb (fun r => Qeq_bool (roundedProduct (Z.of_nat (fst r)) (Z.of_nat (snd r)))
                             (binary64Product (Z.of_nat (fst r)) (Z.of_nat (snd r))))
          (ratiosUpTo bound).

(** Pairs [(total, count)] with [count <= bound] and [total <= 100 * count]. *)
Definition totalsUpTo (bound : nat) : list (nat * nat) :=
  flat_map (fun n => map (fun t => (t, n)) (seq 0 (S (100 * n)))) (seq 1 bound).

Definition quotientAgreesWithBinary64 (bound : nat) : bool :=
  forallb (fun r => Qeq_bool
                      (Num.div (inject_Z (Z.of_nat (fst r))) (inject_Z (Z.of_nat (snd r))))
                      (binary64Quotient (Z.of_nat (fst r)) (Z.of_nat (snd r))))
          (totalsUpTo bound).

Definition agreesWithExact (bound : nat) : bool :=
  forallb (fun r => similarityExpr (Z.of_nat (fst r)) (Z.of_nat (snd r))
                    =? exactSimilarity (Z.of_nat (fst r)) (Z.of_nat (snd r)))
          (ratiosUpTo bound).

(* ================================================================== *)
(** * alignWords *)

Definition MIN_SIMILARITY_THRESHOLD : Z := 30.

Record Pair := mkPair
  { refIdx : nat; spokenIdx : nat; pairSimilarity : Z }.

Record AlignEntry := mkEntry
  { refWord : jsstring; spokenWord : jsstring; similarity : Z }.

Definition extraMark : jsstring := js "(extra)"%string.
Definition missingMark : jsstring := js "(missing)"%string.

Definition word (ws : list jsstring) (i : nat) : jsstring := nth i ws [].

(** Step 1: the similarity matrix. *)
Definition similarityMatrix (referenceWords spokenWords : list jsstring)
  : list (list Z) :=
  map (fun r => map (fun s => calculateWordSimilarity r s) spokenWords)
      referenceWords.

Definition matrixAt (M : list (list Z)) (i j : nat) : Z :=
  nth j (nth i M []) 0.

(** All candidate pairs, row by row. *)
Definition allPairs (m n : nat) (M : list (list Z)) : list Pair :=
  flat_map (fun i => map (fun j => mkPair i j (matrixAt M i j)) (seq 0 n))
           (seq 0 m).

(** [Array.prototype.sort] with the comparator
    [(a, b) => b.similarity - a.similarity]: the stable sort by
    descending similarity. *)
Fixpoint insertDesc (p : Pair) (l : list Pair) : list Pair :=
  match l with
  | [] => [p]
  | q :: l' =>
      if pairSimilarity p <? pairSimilarity q then q :: insertDesc p l'
      else p :: q :: l'
  end.

Definition sortDesc (l : list Pair) : list Pair := fold_right insertDesc [] l.

Definition candidates (referenceWords spokenWords : list jsstring) : list Pair :=
  sortDesc (allPairs (length referenceWords) (length spokenWords)
                     (similarityMatrix referenceWords spokenWords)).

(** Step 2: the greedy sweep. [Set<number>] is a list of its members. *)
Record MatchState := mkState
  { matchedRef : list nat; matchedSpoken : list nat; matches : list Pair }.

Definition has (s : list nat) (i : nat) : bool := existsb (Nat.eqb i) s.

Definition greedyStep (st : MatchState) (pair : Pair) : MatchState :=
  if negb (has (matchedRef st) (refIdx pair))
     && negb (has (matchedSpoken st) (spokenIdx pair))
  then
    if MIN_SIMILARITY_THRESHOLD <=? pairSimilarity pair
    then mkState (refIdx pair :: matchedRef st)
                 (spokenIdx pair :: matchedSpoken st)
                 (matches st ++ [pair])
    else st
  else st.

Definition greedy (pairs : list Pair) : MatchState :=
  fold_left greedyStep pairs (mkState [] [] []).

Definition findMatch (ms : list Pair) (i : nat) : option Pair :=
  find (fun p => Nat.eqb (refIdx p) i) ms.

(** Step 3: the alignment, reference words first, then the extra spoken
    words. *)
Definition refEntry (referenceWords spokenWords : list jsstring)
           (ms : list Pair) (i : nat) : AlignEntry :=
  match findMatch ms i with
  | Some mt => mkEntry (word referenceWords i)
                       (word spokenWords (spokenIdx mt))
                       (pairSimilarity mt)
  | None => mkEntry (word referenceWords i) missingMark 0
  end.

Definition extraEntry (spokenWords : list jsstring) (j : nat) : AlignEntry :=
  mkEntry extraMark (word spokenWords j) 0.

Definition alignWords (referenceWords spokenWords : list jsstring)
  : list AlignEntry :=
  let m := length referenceWords in
  let n := length spokenWords in
  match m, n with
  | O, O => []
  | O, _ => map (fun w => mkEntry extraMark w 0) spokenWords
  | _, O => map (fun w => mkEntry w missingMark 0) referenceWords
  | _, _ =>
      let st := greedy (candidates referenceWords spokenWords) in
      map (refEntry referenceWords spokenWords (matches st)) (seq 0 m)
      ++ map (extraEntry spokenWords)
             (filter (fun j => negb (has (matchedSpoken st) j)) (seq 0 n))
  end.

(** ** Notions used to state the properties of the sweep *)

Definition descending : list Pair -> Prop :=
  StronglySorted (fun p q => pairSimilarity q <= pairSimilarity p).

(** The pairs of one similarity, and those below it, in their order. *)
Definition withSim (v : Z) (l : list Pair) : list Pair :=
  filter (fun p => pairSimilarity p =? v) l.

Definition below (v : Z) (l : list Pair) : list Pair :=
  filter (fun p => pairSimilarity p <? v) l.


Definition row (n : nat) (M : list (list Z)) (i : nat) : list Pair :=
  map (fun j => mkPair i j (matrixAt M i j)) (seq 0 n).

(** What the sweep needs to know about a candidate. *)
Definition candidateOf (referenceWords spokenWords : list jsstring) (p : Pair)
  : Prop :=
  (refIdx p < length referenceWords)%nat /\ (spokenIdx p < length spokenWords)%nat
  /\ pairSimilarity p
     = calculateWordSimilarity (word referenceWords (refIdx p))
                               (word spokenWords (spokenIdx p)).

(** Invariant of the sweep: the two sets are the indices of the recorded
    matches, no index is matched twice, and every match is a candidate
    that reaches the threshold. *)
Record Inv (src : Pair -> Prop) (st : MatchState) : Prop := mkInv
  { inv_ref : matchedRef st = rev (map refIdx (matches st));
    inv_spoken : matchedSpoken st = rev (map spokenIdx (matches st));
    inv_nodup_ref : NoDup (map refIdx (matches st));
    inv_nodup_spoken : NoDup (map spokenIdx (matches st));
    inv_src : Forall (fun p => src p /\ MIN_SIMILARITY_THRESHOLD <= pairSimilarity p)
                     (matches st) }.

(** The state in which the first [k] indices of both sequences are
    matched to each other with similarity 100. *)
Definition diagonal (k : nat) : MatchState :=
  mkState (rev (seq 0 k)) (rev (seq 0 k)) (map (fun i => mkPair i i 100) (seq 0 k)).

(** ** The alignment with its indices

    The entries of the source carry words only. [alignTrace] is the same
    construction keeping, for each entry, which of the three kinds it is
    and the indices it stands for; [render] forgets them again. *)
Inductive Tag :=
| Matched (i j : nat) (s : Z)
| Missing (i : nat)
| Extra (j : nat).

Definition refTag (ms : list Pair) (i : nat) : Tag :=
  match findMatch ms i with
  | Some mt => Matched i (spokenIdx mt) (pairSimilarity mt)
  | None => Missing i
  end.

Definition alignTrace (referenceWords spokenWords : list jsstring) : list Tag :=
  let m := length referenceWords in
  let n := length spokenWords in
  match m, n with
  | O, O => []
  | O, _ => map Extra (seq 0 n)
  | _, O => map Missing (seq 0 m)
  | _, _ =>
      let st := greedy (candidates referenceWords spokenWords) in
      map (refTag (matches st)) (seq 0 m)
      ++ map Extra (filter (fun j => negb (has (matchedSpoken st) j)) (seq 0 n))
  end.

Definition render (referenceWords spokenWords : list jsstring) (t : Tag)
  : AlignEntry :=
  match t with
  | Matched i j s => mkEntry (word referenceWords i) (word spokenWords j) s
  | Missing i => mkEntry (word referenceWords i) missingMark 0
  | Extra j => mkEntry extraMark (word spokenWords j) 0
  end.

Definition isRefTag (t : Tag) : bool :=
  match t with Extra _ => false | _ => true end.

Definition isExtraTag (t : Tag) : bool :=
  match t with Extra _ => true | _ => false end.

(** Reference indices, and spoken indices, that the entries stand for. *)
Definition refIndices (tr : list Tag) : list nat :=
  flat_map (fun t => match t with
                     | Matched i _ _ => [i] | Missing i => [i] | Extra _ => []
                     end) tr.

Definition spokenIndices (tr : list Tag) : list nat :=
  flat_map (fun t => match t with
                     | Matched _ j _ => [j] | Missing _ => [] | Extra j => [j]
                     end) tr.

(* ================================================================== *)
(** * normalizeText and splitIntoWords *)

(** [\s] of a regular expression, which is also what [trim] strips. *)
Definition isWhiteSpace (c : char16) : bool :=
  ((9 <=? c) && (c <=? 13) || (c =? 32) || (c =? 160) || (c =? 5760)
   || (8192 <=? c) && (c <=? 8202)
   || (c =? 8232) || (c =? 8233) || (c =? 8239) || (c =? 8287)
   || (c =? 12288) || (c =? 65279))%N.

(** The class [[।,\.!?;:\-]]. *)
Definition isPunctuation (c : char16) : bool :=
  ((c =? 2404) || (c =? 44) || (c =? 46) || (c =? 33) || (c =? 63)
   || (c =? 59) || (c =? 58) || (c =? 45))%N.

Definition space : char16 := 32%N.

(** [.replace(/[।,\.!?;:\-]/g, " ")] *)
Definition replacePunctuation (s : jsstring) : jsstring :=
  map (fun c => if isPunctuation c then space else c) s.

(** [.replace(/\s+/g, " ")]; [inRun] tells that the previous code unit
    belonged to the run of white space being replaced. *)
Fixpoint collapseFrom (inRun : bool) (s : jsstring) : jsstring :=
  match s with
  | [] => []
  | c :: t =>
      if isWhiteSpace c
      then (if inRun then collapseFrom true t else space :: collapseFrom true t)
      else c :: collapseFrom false t
  end.

Definition collapseWhiteSpace (s : jsstring) : jsstring := collapseFrom false s.

(** [.trim()] *)
Fixpoint trimStart (s : jsstring) : jsstring :=
  match s with
  | [] => []
  | c :: t => if isWhiteSpace c then trimStart t else s
  end.

Fixpoint trimEnd (s : jsstring) : jsstring :=
  match s with
  | [] => []
  | c :: t =>
      match trimEnd t with
      | [] => if isWhiteSpace c then [] else [c]
      | t' => c :: t'
      end
  end.

Definition trim (s : jsstring) : jsstring := trimEnd (trimStart s).

(** [.split(/\s+/)]: the pieces between the runs of white space, empty
    pieces at both ends included. *)
Fixpoint splitFrom (inRun : bool) (s : jsstring) : list jsstring :=
  match s with
  | [] => [[]]
  | c :: t =>
      if isWhiteSpace c
      then (if inRun then splitFrom true t else [] :: splitFrom true t)
      else match splitFrom false t with
           | p :: ps => (c :: p) :: ps
           | [] => [[c]]
           end
  end.

Definition splitWhiteSpace (s : jsstring) : list jsstring := splitFrom false s.

(** Every white-space code unit is a single U+0020 that does not follow
    another one ([inRun]: the code unit before the string was white
    space). *)
Fixpoint spaced (inRun : bool) (s : jsstring) : bool :=
  match s with
  | [] => true
  | c :: t =>
      if isWhiteSpace c
      then negb inRun && (c =? space)%N && spaced true t
      else spaced false t
  end.

Definition noPunctuation (s : jsstring) : Prop :=
  Forall (fun c => isPunctuation c = false) s.

(** The three passes of [normalizeText] that follow the Unicode ones. *)
Definition tidy (s : jsstring) : jsstring :=
  trim (collapseWhiteSpace (replacePunctuation s)).

Record WordScore := mkWordScore
  { wsWord : jsstring; transcribedWord : jsstring; score : Z }.

Record ScoringResult := mkResult
  { transcription : jsstring;
    wordScores : list WordScore;
    overallScore : Z;
    method : jsstring }.

Definition totalScore (wss : list WordScore) : Z :=
  fold_left (fun sum ws => sum + score ws) wss 0.

Definition sumScores (wss : list WordScore) : Z :=
  fold_right Z.add 0 (map score wss).

(** [wordScores.length > 0 ? Math.round(totalScore / wordScores.length) : 0] *)
Definition overallScoreOf (wss : list WordScore) : Z :=
  if (0 <? length wss)%nat
  then Num.Math_round
         (Num.div (inject_Z (totalScore wss)) (inject_Z (Z.of_nat (length wss))))
  else 0.

Definition toWordScore (a : AlignEntry) : WordScore :=
  mkWordScore (refWord a) (spokenWord a) (similarity a).

(** Rounding of an exact mean to the nearest integer, ties upwards. *)
Definition roundedMean (total : Z) (count : nat) : Z :=
  Qfloor (inject_Z total / inject_Z (Z.of_nat count) + (1 # 2))%Q.

Section Engine.

(** [text.normalize('NFC')] and [text.toLowerCase()] of the runtime. *)
Variable normalizeNFC : jsstring -> jsstring.
Variable toLowerCase : jsstring -> jsstring.

Definition normalizeText (text : jsstring) : jsstring :=
  trim (collapseWhiteSpace (replacePunctuation (toLowerCase (normalizeNFC text)))).

Definition splitIntoWords (text : jsstring) : list jsstring :=
  filter (fun w => (0 <? length w)%nat) (splitWhiteSpace (normalizeText text)).

Definition calculateLevenshteinScores (transcription referenceText : jsstring)
  : ScoringResult :=
  let referenceWords := splitIntoWords referenceText in
  let transcribedWords := splitIntoWords transcription in
  let alignment := alignWords referenceWords transcribedWords in
  let wordScores := map toWordScore alignment in
  mkResult transcription wordScores (overallScoreOf wordScores)
           (js "Sequence Alignment (Levenshtein)"%string).

End Engine.

(** Two functions that coincide with the built-ins on the texts of
    [Sample] below, to evaluate the engine there. [lowerBasic] moves A-Z
    to a-z, which is [toLowerCase] on every string whose only cased
    letters are ASCII. [composeJCaron] composes j followed by U+030C
    (combining caron) into U+01F0 and changes nothing else; the texts
    below and their lower-cased forms are in NFC but for that pair, so it
    is [normalize('NFC')] on them. *)
Definition lowerBasic (s : jsstring) : jsstring :=
  map (fun c => if ((65 <=? c) && (c <=? 90))%N then (c + 32)%N else c) s.

Fixpoint composeJCaron (s : jsstring) : jsstring :=
  match s with
  | [] => []
  | c :: t =>
      match t with
      | d :: t' =>
          if ((c =? 106) && (d =? 780))%N then 496%N :: composeJCaron t'
          else c :: composeJCaron t
      | [] => [c]
      end
  end.

(* ================================================================== *)
(** * Texts used in the examples *)

Module Sample.

(** Scenario 1 of the specification, in UTF-16 code units. *)
Definition main : jsstring := [2350; 2376; 2306]%N.                    (* मैं *)
Definition aaj : jsstring := [2310; 2332]%N.                           (* आज *)
Definition bazaar : jsstring := [2348; 2366; 2332; 2364; 2366; 2352]%N. (* बाज़ार *)
Definition bajari : jsstring := [2348; 2366; 2332; 2366; 2352; 2368]%N. (* बाजारी *)

Definition reference1 : list jsstring := [main; aaj; bazaar].
Definition spoken1 : list jsstring := [aaj; main; bajari].

(** The pair of the threshold example of the technical documentation,
    whose similarity is 13. *)
Definition beligge : jsstring :=
  [3244; 3270; 3251; 3263; 3223; 3277; 3223; 3270]%N.                  (* ಬೆಳಿಗ್ಗೆ *)
Definition ide : jsstring := [3207; 3238; 3270]%N.                      (* ಇದೆ *)

(** Forty and three times the letter a. *)
Definition long40 : jsstring := repeat 97%N 40.
Definition short3 : jsstring := repeat 97%N 3.

(** J followed by U+030C, which is in NFC; its lower case is not. *)
Definition jCaron : jsstring := [74; 780]%N.

Definition greeting : jsstring := js "  Hello,  World! "%string.
Definition sentence : jsstring :=                                       (* आज, मैं! *)
  [32; 2310; 2332; 44; 32; 2350; 2376; 2306; 33; 32]%N.

End Sample.

(* ================================================================== *)
(** * The callers of the engine *)

(** [a === b] on strings. *)
Fixpoint jsEqb (a b : jsstring) : bool :=
  match a, b with
  | [], [] => true
  | c :: a', d :: b' => (c =? d)%N && jsEqb a' b'
  | _, _ => false
  end.

(** [words.join(" ")], to state what the tokens of a text add up to. *)
Definition joinSpace (ws : list jsstring) : jsstring :=
  match ws with
  | [] => []
  | w :: rest => w ++ concat (map (cons space) rest)
  end.

(** The three kinds of entries of a trace. *)
Definition isMatched (t : Tag) : bool :=
  match t with Matched _ _ _ => true | _ => false end.

Definition isMissing (t : Tag) : bool :=
  match t with Missing _ => true | _ => false end.

(** ** The reply of the transcription stage (server/gemini.ts)

    [text.match(/\{[\s\S]*\}/)]: the leftmost match of a greedy pattern,
    that is, from the first opening brace to the last closing brace after
    it. *)
Definition openBrace : char16 := 123%N.
Definition closeBrace : char16 := 125%N.

Fixpoint fromFirstOpen (s : jsstring) : option jsstring :=
  match s with
  | [] => None
  | c :: t => if (c =? openBrace)%N then Some s else fromFirstOpen t
  end.

Fixpoint throughLastClose (s : jsstring) : option jsstring :=
  match s with
  | [] => None
  | c :: t =>
      match throughLastClose t with
      | Some p => Some (c :: p)
      | None => if (c =? closeBrace)%N then Some [c] else None
      end
  end.

Definition matchJsonSpan (text : jsstring) : option jsstring :=
  match fromFirstOpen text with
  | Some (b :: rest) => option_map (cons b) (throughLastClose rest)
  | _ => None
  end.

(** The two errors raised before [JSON.parse] is reached. *)
Inductive ReplyError := EmptyResponse | FailedToParse.

(** [if (!text) throw ...; const jsonMatch = text.match(...);
     if (!jsonMatch) throw ...; ... jsonMatch[0]] *)
Definition jsonTextOf (text : jsstring) : ReplyError + jsstring :=
  match text with
  | [] => inl EmptyResponse
  | _ => match matchJsonSpan text with
         | Some span => inr span
         | None => inl FailedToParse
         end
  end.

(** ** The route /api/pronunciation/analyze-v2 (server/routes.ts) *)

Definition nonEmptyWords (s : jsstring) : list jsstring :=
  filter (fun w => (0 <? length w)%nat) (splitWhiteSpace s).

(** The class [[,\.!?;:\-]] used for the transliteration. *)
Definition isLatinPunctuation (c : char16) : bool :=
  ((c =? 44) || (c =? 46) || (c =? 33) || (c =? 63)
   || (c =? 59) || (c =? 58) || (c =? 45))%N.

(** [array.indexOf(x)], with [None] for -1. *)
Fixpoint indexOf (x : jsstring) (l : list jsstring) : option nat :=
  match l with
  | [] => None
  | y :: l' => if jsEqb y x then Some O else option_map S (indexOf x l')
  end.

Record RouteWordScore := mkRouteWordScore
  { rsWord : jsstring;
    rsTransliteration : jsstring;
    rsTranscribedWord : jsstring;
    rsScore : Z }.

Record ProblemWord := mkProblemWord
  { pwWord : jsstring;
    pwTransliteration : jsstring;
    pwSpokenWord : jsstring;
    pwScore : Z }.

(** [wordScores.filter(ws => ws.score < 70 && ws.word !== "(extra)").map(...)] *)
Definition problemWords (wss : list RouteWordScore) : list ProblemWord :=
  map (fun ws => mkProblemWord (rsWord ws) (rsTransliteration ws)
                               (rsTranscribedWord ws) (rsScore ws))
      (filter (fun ws => (rsScore ws <? 70) && negb (jsEqb (rsWord ws) extraMark))
              wss).

(** Stage 3 calls the tips model only [if (problemWords.length > 0)]. *)
Definition stage3Runs (wss : list RouteWordScore) : bool :=
  (0 <? length (problemWords wss))%nat.

Section Route.

Variable normalizeNFC : jsstring -> jsstring.
Variable toLowerCase : jsstring -> jsstring.

Definition nativeWords (referenceText : jsstring) : list jsstring :=
  nonEmptyWords
    (trim (collapseWhiteSpace (replacePunctuation (normalizeNFC referenceText)))).

Definition translitWords (transliteration : jsstring) : list jsstring :=
  nonEmptyWords
    (trim (collapseWhiteSpace
             (map (fun c => if isLatinPunctuation c then space else c)
                  transliteration))).

Definition nativeWordsNormalized (referenceText : jsstring) : list jsstring :=
  map (fun w => toLowerCase (normalizeNFC w)) (nativeWords referenceText).

Definition transliterationDisplay (referenceText transliteration : jsstring)
           (ws : WordScore) : jsstring :=
  if jsEqb (wsWord ws) extraMark then wsWord ws
  else
    let normalizedWord := toLowerCase (normalizeNFC (wsWord ws)) in
    match indexOf normalizedWord (nativeWordsNormalized referenceText) with
    | Some wordIndex =>
        match nth_error (translitWords transliteration) wordIndex with
        | Some t => if (0 <? length t)%nat then t else wsWord ws
        | None => wsWord ws
        end
    | None => wsWord ws
    end.

(** One element of [levenshteinResult.wordScores.map(ws => ...)]. *)
Definition routeEntry (referenceText transliteration : jsstring) (ws : WordScore)
  : RouteWordScore :=
  mkRouteWordScore (wsWord ws)
                   (transliterationDisplay referenceText transliteration ws)
                   (transcribedWord ws)
                   (score ws).

(** The [wordScores] of the response, from the transcription of stage 1. *)
Definition routeWordScores (transcription referenceText transliteration : jsstring)
  : list RouteWordScore :=
  map (routeEntry referenceText transliteration)
      (wordScores (calculateLevenshteinScores normalizeNFC toLowerCase
                                              transcription referenceText)).

End Route.

(** ** The results component (client/src/components/PronunciationResultsV2.tsx) *)

Definition regularWords (wss : list RouteWordScore) : list RouteWordScore :=
  filter (fun ws => negb (jsEqb (rsWord ws) extraMark)
                    && negb (jsEqb (rsTranscribedWord ws) missingMark)) wss.

Definition missingWords (wss : list RouteWordScore) : list RouteWordScore :=
  filter (fun ws => jsEqb (rsTranscribedWord ws) missingMark) wss.

Definition extraWords (wss : list RouteWordScore) : list RouteWordScore :=
  filter (fun ws => jsEqb (rsWord ws) extraMark) wss.




(** A response entry without its transliteration. *)
Definition forgetTransliteration (e : RouteWordScore) : WordScore :=
  mkWordScore (rsWord e) (rsTranscribedWord e) (rsScore e).

(** Texts to evaluate the route on: the sentence of [Sample], its
    transliteration, and two transcriptions, one with the two words
    exchanged and one with the first word only. They are in NFC and
    hold no cased letter but the ASCII ones, so that [lowerBasic] and
    [composeJCaron] are the built-ins on them. *)
Module Reading.

Definition reference : jsstring := Sample.sentence.                  (* आज, मैं! *)
Definition transliteration : jsstring := js "Aaj, main!"%string.
Definition exchanged : jsstring := Sample.main ++ space :: Sample.aaj. (* मैं आज *)
Definition firstOnly : jsstring := Sample.aaj.                        (* आज *)

(** Two tokens of 200 code units that differ in the first one. *)
Definition longX : jsstring := 120%N :: repeat 97%N 199.
Definition longY : jsstring := 121%N :: repeat 97%N 199.

End Reading.

(* ================================================================== *)
(** * Facts about double-precision rounding *)

Module NumFacts.
Import Num.
Local Open Scope Q_scope.

Lemma pow2_pos e : 0 < pow2 e.
Proof. apply Qpower_0_lt. reflexivity. Qed.

Lemma pow2_add a b : pow2 (a + b) == pow2 a * pow2 b.
Proof. apply Qpower_plus. discriminate. Qed.

Lemma pow2_le a b : (a <= b)%Z -> pow2 a <= pow2 b.
Proof. intros H. apply Qpower_le_compat_l; [exact H|discriminate]. Qed.

Lemma pow2_lt a b : (a < b)%Z -> pow2 a < pow2 b.
Proof. intros H. apply Qpower_lt_compat_l; [exact H|reflexivity]. Qed.

Lemma pow2_Z z : (0 <= z)%Z -> pow2 z == inject_Z (2 ^ z).
Proof. intros H. unfold pow2. now rewrite Zpower_Qpower. Qed.

Lemma pow2_cancel a : pow2 a * pow2 (- a) == 1.
Proof. rewrite <- pow2_add, Z.add_opp_diag_r. reflexivity. Qed.

(** ** The binade of a positive number *)

Lemma log2_bounds (n : Z) :
  (0 < n)%Z -> pow2 (Z.log2 n) <= inject_Z n /\ inject_Z n < pow2 (Z.log2 n + 1).
Proof.
  intros Hn. destruct (Z.log2_spec n Hn) as [Hlo Hhi].
  pose proof (Z.log2_nonneg n) as H0.
  rewrite !pow2_Z by lia. rewrite <- Zle_Qle, <- Zlt_Qlt.
  split; [exact Hlo|]. now rewrite <- Z.add_1_r in Hhi.
Qed.

Lemma binade_spec x :
  0 < x -> pow2 (binade x) <= x /\ x < pow2 (binade x + 1).
Proof.
  intros Hx. destruct x as [a b]. unfold binade. cbn [Qnum Qden].
  assert (Ha : (0 < a)%Z).
  { unfold Qlt in Hx. simpl in Hx. lia. }
  destruct (log2_bounds a Ha) as [Ha1 Ha2].
  destruct (log2_bounds (Zpos b) eq_refl) as [Hb1 Hb2].
  set (la := Z.log2 a) in *. set (lb := Z.log2 (Zpos b)) in *.
  assert (Hb : 0 < inject_Z (Zpos b)) by reflexivity.
  assert (Hlow : pow2 (la - lb - 1) <= a # b).
  { rewrite Qmake_Qdiv. apply Qle_shift_div_l; [exact Hb|].
    assert (E : pow2 la == pow2 (la - lb - 1) * pow2 (lb + 1)).
    { rewrite <- pow2_add. now replace (la - lb - 1 + (lb + 1))%Z with la by ring. }
    pose proof (pow2_pos (la - lb - 1)). nra. }
  assert (Hhigh : a # b < pow2 (la - lb + 1)).
  { rewrite Qmake_Qdiv. apply Qlt_shift_div_r; [exact Hb|].
    assert (E : pow2 (la + 1) == pow2 (la - lb + 1) * pow2 lb).
    { rewrite <- pow2_add. now replace (la - lb + 1 + lb)%Z with (la + 1)%Z by ring. }
    pose proof (pow2_pos (la - lb + 1)). nra. }
  destruct (Qle_bool (pow2 (la - lb)) (a # b)) eqn:E.
  - apply Qle_bool_iff in E. split; [exact E|exact Hhigh].
  - split; [exact Hlow|].
    replace (la - lb - 1 + 1)%Z with (la - lb)%Z by ring.
    apply Qnot_le_lt. intros H. apply Qle_bool_iff in H. congruence.
Qed.

Lemma binade_unique x k :
  pow2 k <= x -> x < pow2 (k + 1) -> binade x = k.
Proof.
  intros Hlo Hhi.
  assert (Hx : 0 < x) by (eapply Qlt_le_trans; [apply pow2_pos|exact Hlo]).
  destruct (binade_spec x Hx) as [Blo Bhi].
  assert (H1 : (binade x < k + 1)%Z).
  { apply (Qpower_lt_compat_l_inv (2 # 1)); [|reflexivity].
    eapply Qle_lt_trans; [exact Blo|exact Hhi]. }
  assert (H2 : (k < binade x + 1)%Z).
  { apply (Qpower_lt_compat_l_inv (2 # 1)); [|reflexivity].
    eapply Qle_lt_trans; [exact Hlo|exact Bhi]. }
  lia.
Qed.

Lemma binade_mono x y : 0 < x -> x <= y -> (binade x <= binade y)%Z.
Proof.
  intros Hx Hxy.
  assert (Hy : 0 < y) by (eapply Qlt_le_trans; eassumption).
  destruct (binade_spec x Hx) as [Xlo _]. destruct (binade_spec y Hy) as [_ Yhi].
  assert (H : (binade x < binade y + 1)%Z).
  { apply (Qpower_lt_compat_l_inv (2 # 1)); [|reflexivity].
    eapply Qle_lt_trans; [exact Xlo|]. eapply Qle_lt_trans; eassumption. }
  lia.
Qed.

(** ** Rounding to an integer *)

Lemma round_half_even_cases x :
  round_half_even x = Qfloor x \/ round_half_even x = (Qfloor x + 1)%Z.
Proof.
  unfold round_half_even.
  destruct (x - inject_Z (Qfloor x) ?= 1 # 2); auto.
  destruct (Z.even (Qfloor x)); auto.
Qed.

Lemma round_half_even_floor x :
  round_half_even x = Qfloor x -> x - inject_Z (Qfloor x) <= 1 # 2.
Proof.
  unfold round_half_even.
  destruct (x - inject_Z (Qfloor x) ?= 1 # 2) eqn:E.
  - intros _. apply Qeq_alt in E. rewrite E. apply Qle_refl.
  - intros _. apply Qlt_alt in E. now apply Qlt_le_weak.
  - intros H. lia.
Qed.

Lemma round_half_even_ceil x :
  round_half_even x = (Qfloor x + 1)%Z -> 1 # 2 <= x - inject_Z (Qfloor x).
Proof.
  unfold round_half_even.
  destruct (x - inject_Z (Qfloor x) ?= 1 # 2) eqn:E.
  - intros _. apply Qeq_alt in E. rewrite E. apply Qle_refl.
  - intros H. lia.
  - intros _. apply Qgt_alt in E. now apply Qlt_le_weak.
Qed.

Lemma round_half_even_Z (n : Z) : round_half_even (inject_Z n) = n.
Proof.
  unfold round_half_even. rewrite Qfloor_Z.
  assert (E : ((inject_Z n - inject_Z n) ?= (1 # 2)) = Lt).
  { apply (proj1 (Qlt_alt _ _)). lra. }
  now rewrite E.
Qed.

Lemma round_half_even_eq x (n : Z) : x == inject_Z n -> round_half_even x = n.
Proof.
  intros E. unfold round_half_even.
  rewrite (Qfloor_comp x (inject_Z n) E), Qfloor_Z.
  assert (E' : ((x - inject_Z n) ?= (1 # 2)) = Lt).
  { apply (proj1 (Qlt_alt _ _)). lra. }
  now rewrite E'.
Qed.

Lemma round_half_even_mono x y :
  x <= y -> (round_half_even x <= round_half_even y)%Z.
Proof.
  intros Hxy. pose proof (Qfloor_resp_le x y Hxy) as Hf.
  destruct (Z.eq_dec (Qfloor x) (Qfloor y)) as [E|NE].
  - destruct (round_half_even_cases x) as [Hx|Hx], (round_half_even_cases y) as [Hy|Hy];
      try lia.
    (* x rounds up, y rounds down, same floor: both fractions are 1/2 *)
    pose proof (round_half_even_ceil x Hx) as Cx.
    pose proof (round_half_even_floor y Hy) as Cy.
    rewrite <- E in Cy.
    assert (Ex : x - inject_Z (Qfloor x) == 1 # 2) by lra.
    assert (Ey : y - inject_Z (Qfloor y) == 1 # 2) by (rewrite <- E; lra).
    apply Qeq_alt in Ex, Ey.
    unfold round_half_even in Hx, Hy. rewrite Ex in Hx. rewrite Ey in Hy.
    rewrite <- E in Hy. destruct (Z.even (Qfloor x)); lia.
  - destruct (round_half_even_cases x) as [Hx|Hx], (round_half_even_cases y) as [Hy|Hy];
      lia.
Qed.

Lemma round_half_even_ge x (n : Z) : inject_Z n <= x -> (n <= round_half_even x)%Z.
Proof. intros H. rewrite <- (round_half_even_Z n). now apply round_half_even_mono. Qed.

Lemma round_half_even_le x (n : Z) : x <= inject_Z n -> (round_half_even x <= n)%Z.
Proof. intros H. rewrite <- (round_half_even_Z n). now apply round_half_even_mono. Qed.

(** ** Rounding to 53 significant bits *)

Lemma round53_pos_eq x :
  round53_pos x
  == inject_Z (round_half_even (x / pow2 (binade x - 52))) * pow2 (binade x - 52).
Proof. unfold round53_pos. apply Qred_correct. Qed.

Lemma pow2_split x : pow2 (binade x) == pow2 52 * pow2 (binade x - 52).
Proof. rewrite <- pow2_add. now replace (52 + (binade x - 52))%Z with (binade x) by ring. Qed.

Lemma pow2_split' x : pow2 (binade x + 1) == pow2 53 * pow2 (binade x - 52).
Proof.
  rewrite <- pow2_add.
  now replace (53 + (binade x - 52))%Z with (binade x + 1)%Z by ring.
Qed.

Lemma scaled_bounds x :
  0 < x ->
  pow2 52 <= x / pow2 (binade x - 52) /\ x / pow2 (binade x - 52) < pow2 53.
Proof.
  intros Hx. destruct (binade_spec x Hx) as [Hlo Hhi].
  pose proof (pow2_pos (binade x - 52)) as He.
  split.
  - apply Qle_shift_div_l; [exact He|]. now rewrite <- pow2_split.
  - apply Qlt_shift_div_r; [exact He|]. now rewrite <- pow2_split'.
Qed.

Lemma significand_bounds x :
  0 < x ->
  (2 ^ 52 <= round_half_even (x / pow2 (binade x - 52)) <= 2 ^ 53)%Z.
Proof.
  intros Hx. destruct (scaled_bounds x Hx) as [Hlo Hhi].
  rewrite (pow2_Z 52) in Hlo by lia. rewrite (pow2_Z 53) in Hhi by lia. split.
  - now apply round_half_even_ge.
  - apply round_half_even_le. now apply Qlt_le_weak.
Qed.

Lemma round53_pos_bounds x :
  0 < x ->
  pow2 (binade x) <= round53_pos x /\ round53_pos x <= pow2 (binade x + 1).
Proof.
  intros Hx. destruct (significand_bounds x Hx) as [Hlo Hhi].
  pose proof (pow2_pos (binade x - 52)) as He.
  rewrite round53_pos_eq, pow2_split, pow2_split', (pow2_Z 52), (pow2_Z 53) by lia.
  split; (apply Qmult_le_compat_r; [|now apply Qlt_le_weak]); now rewrite <- Zle_Qle.
Qed.

Lemma round53_pos_mono x y : 0 < x -> x <= y -> round53_pos x <= round53_pos y.
Proof.
  intros Hx Hxy.
  assert (Hy : 0 < y) by (eapply Qlt_le_trans; eassumption).
  pose proof (binade_mono x y Hx Hxy) as Hb.
  destruct (Z.eq_dec (binade x) (binade y)) as [E|NE].
  - rewrite !round53_pos_eq, E.
    pose proof (pow2_pos (binade y - 52)) as He.
    apply Qmult_le_compat_r; [|now apply Qlt_le_weak].
    rewrite <- Zle_Qle. apply round_half_even_mono.
    apply Qmult_le_compat_r; [exact Hxy|].
    apply Qlt_le_weak, Qinv_lt_0_compat, He.
  - destruct (round53_pos_bounds x Hx) as [_ Hux].
    destruct (round53_pos_bounds y Hy) as [Hly _].
    eapply Qle_trans; [exact Hux|]. eapply Qle_trans; [|exact Hly].
    apply pow2_le. lia.
Qed.

Lemma round53_zero x : x == 0 -> round53 x = 0.
Proof. intros E. unfold round53. apply Qeq_alt in E. now rewrite E. Qed.

Lemma round53_positive x : 0 < x -> round53 x = round53_pos x.
Proof.
  intros H. unfold round53.
  assert (E : (x ?= 0) = Gt) by now apply (proj1 (Qgt_alt _ _)).
  now rewrite E.
Qed.

Lemma round53_nonneg x : 0 <= x -> 0 <= round53 x.
Proof.
  intros H. destruct (Qlt_le_dec 0 x) as [Hp|Hz].
  - rewrite round53_positive by exact Hp.
    destruct (round53_pos_bounds x Hp) as [Hlo _].
    eapply Qle_trans; [|exact Hlo]. apply Qlt_le_weak, pow2_pos.
  - rewrite round53_zero; [apply Qle_refl|]. now apply Qle_antisym.
Qed.

Lemma round53_mono x y : 0 <= x -> x <= y -> round53 x <= round53 y.
Proof.
  intros Hx Hxy. destruct (Qlt_le_dec 0 x) as [Hp|Hz].
  - assert (Hy : 0 < y) by (eapply Qlt_le_trans; eassumption).
    rewrite !round53_positive by assumption. now apply round53_pos_mono.
  - rewrite (round53_zero x) by now apply Qle_antisym.
    apply round53_nonneg. eapply Qle_trans; eassumption.
Qed.

(** Numbers with an integer significand below 2^53 are not changed. *)
Lemma round53_representable (M E : Z) :
  (0 < M < 2 ^ 53)%Z ->
  round53 (inject_Z M * pow2 E) == inject_Z M * pow2 E.
Proof.
  intros HM. set (x := inject_Z M * pow2 E).
  assert (Hx : 0 < x).
  { apply Qmult_lt_0_compat; [|apply pow2_pos]. rewrite Zlt_Qlt in HM. apply HM. }
  rewrite round53_positive, round53_pos_eq by exact Hx.
  set (e := (binade x - 52)%Z).
  destruct (scaled_bounds x Hx) as [Hlo _]. fold e in Hlo.
  assert (Hscaled : x / pow2 e == inject_Z M * pow2 (E - e)).
  { assert (Hp : pow2 E == pow2 (E - e) * pow2 e).
    { rewrite <- pow2_add. now replace (E - e + e)%Z with E by ring. }
    unfold x. rewrite Hp. field.
    pose proof (pow2_pos e) as H. intros H0. rewrite H0 in H. discriminate. }
  assert (Hge : (0 <= E - e)%Z).
  { destruct (Z.le_gt_cases 0 (E - e)) as [H|H]; [exact H|exfalso].
    assert (Hh : pow2 (E - e) <= pow2 (-1)) by (apply pow2_le; lia).
    rewrite Hscaled in Hlo. rewrite pow2_Z in Hlo by lia.
    assert (HM' : inject_Z M < inject_Z (2 ^ 53)) by (rewrite <- Zlt_Qlt; lia).
    assert (HM0 : 0 < inject_Z M) by (rewrite Zlt_Qlt in HM; apply HM).
    assert (Hhalf : pow2 (-1) == 1 # 2) by reflexivity.
    assert (H53 : inject_Z (2 ^ 53) == 2 * inject_Z (2 ^ 52)).
    { change (2 ^ 53)%Z with (2 * 2 ^ 52)%Z. now rewrite inject_Z_mult. }
    generalize dependent (inject_Z (2 ^ 53)). generalize dependent (inject_Z (2 ^ 52)).
    intros. nra. }
  assert (Hint : x / pow2 e == inject_Z (M * 2 ^ (E - e))).
  { rewrite Hscaled, pow2_Z by exact Hge. now rewrite inject_Z_mult. }
  rewrite (round_half_even_eq _ _ Hint), inject_Z_mult, <- pow2_Z by exact Hge.
  unfold x. rewrite <- Qmult_assoc, <- pow2_add.
  now replace (E - e + e)%Z with E by ring.
Qed.

End NumFacts.

(* ================================================================== *)
(** * Edit distance *)

Lemma levenshtein_nil_l t : levenshtein_get [] t = length t.
Proof. reflexivity. Qed.

Lemma levenshtein_nil_r s : levenshtein_get s [] = length s.
Proof. destruct s; reflexivity. Qed.

Lemma levenshtein_cons a s b t :
  levenshtein_get (a :: s) (b :: t)
  = min3 (S (levenshtein_get s (b :: t)))
         (S (levenshtein_get (a :: s) t))
         ((if N.eqb a b then 0 else 1) + levenshtein_get s t)%nat.
Proof. reflexivity. Qed.

Lemma min3_le a b c : (min3 a b c <= a /\ min3 a b c <= b /\ min3 a b c <= c)%nat.
Proof. unfold min3. lia. Qed.

Lemma min3_cases a b c : min3 a b c = a \/ min3 a b c = b \/ min3 a b c = c.
Proof. unfold min3. lia. Qed.

(** Unfold one step of the distance and recall that [min3] is below each
    of its arguments. *)
Ltac step_distance :=
  rewrite levenshtein_cons;
  match goal with
  | |- context [min3 ?a ?b ?c] => pose proof (min3_le a b c)
  end.

Lemma levenshtein_le_max s t :
  (levenshtein_get s t <= Nat.max (length s) (length t))%nat.
Proof.
  revert t. induction s as [|a s IH]; intros t.
  - rewrite levenshtein_nil_l. simpl. lia.
  - destruct t as [|b t].
    + rewrite levenshtein_nil_r. lia.
    + step_distance. specialize (IH t). simpl length. destruct (N.eqb a b); lia.
Qed.

Lemma levenshtein_refl s : levenshtein_get s s = 0%nat.
Proof.
  induction s as [|a s IH]; [reflexivity|].
  step_distance. rewrite N.eqb_refl, IH in *. lia.
Qed.

Create HintDb edit.
#[local] Hint Constructors EditScript : edit.

Lemma EditScript_insert_all t : EditScript [] t (length t).
Proof. induction t; simpl; auto with edit. Qed.

Lemma EditScript_delete_all s : EditScript s [] (length s).
Proof. induction s; simpl; auto with edit. Qed.

(** The distance is the cost of some edit script ... *)
Lemma levenshtein_script s t : EditScript s t (levenshtein_get s t).
Proof.
  revert t. induction s as [|a s IHs]; intros t.
  - rewrite levenshtein_nil_l. apply EditScript_insert_all.
  - induction t as [|b t IHt].
    + rewrite levenshtein_nil_r. apply EditScript_delete_all.
    + rewrite levenshtein_cons.
      destruct (min3_cases (S (levenshtein_get s (b :: t)))
                           (S (levenshtein_get (a :: s) t))
                           ((if N.eqb a b then 0 else 1) + levenshtein_get s t)%nat)
        as [E|[E|E]]; rewrite E; auto with edit.
      destruct (N.eqb_spec a b) as [->|_]; simpl; auto with edit.
Qed.

(** ... and no edit script is cheaper. *)
Lemma levenshtein_minimal s t n : EditScript s t n -> (levenshtein_get s t <= n)%nat.
Proof.
  induction 1 as [|a s t n _ IH|a b s t n _ IH|a s t n _ IH|b s t n _ IH].
  - simpl. lia.
  - step_distance. rewrite N.eqb_refl in *. lia.
  - step_distance. destruct (N.eqb a b); lia.
  - destruct t as [|b t].
    + rewrite levenshtein_nil_r in *. simpl. lia.
    + step_distance. lia.
  - destruct s as [|a s].
    + rewrite levenshtein_nil_l in *. simpl. lia.
    + step_distance. lia.
Qed.

(* ================================================================== *)
(** * The similarity expression *)

Lemma calculateWordSimilarity_eq word1 word2 :
  calculateWordSimilarity word1 word2
  = let maxLength := Z.max (Z.of_nat (length word1)) (Z.of_nat (length word2)) in
    if maxLength =? 0 then 100
    else similarityExpr (Z.of_nat (levenshtein_get word1 word2)) maxLength.
Proof. reflexivity. Qed.

Section Range.
Import Num NumFacts.
Local Open Scope Q_scope.

Lemma round53_1 : round53 1 = 1.
Proof. vm_compute. reflexivity. Qed.

Lemma round53_100 : round53 100 = 100.
Proof. vm_compute. reflexivity. Qed.

Lemma Math_round_range v : 0 <= v -> v <= 100 -> (0 <= Math_round v <= 100)%Z.
Proof.
  intros H0 H1. unfold Math_round. split.
  - change 0%Z with (Qfloor 0). apply Qfloor_resp_le. lra.
  - change 100%Z with (Qfloor (100 + (1 # 2))). apply Qfloor_resp_le. lra.
Qed.

Lemma Math_max_0 p : 0 <= Math_max 0 p /\ (p <= 100 -> Math_max 0 p <= 100).
Proof.
  unfold Math_max. destruct (Qle_bool 0 p) eqn:E.
  - apply Qle_bool_iff in E. split; auto.
  - split; [apply Qle_refl|]. intros _. discriminate.
Qed.

Lemma ratio_bounds (d L : Z) :
  (0 <= d <= L)%Z -> (0 < L)%Z ->
  0 <= inject_Z d / inject_Z L /\ inject_Z d / inject_Z L <= 1.
Proof.
  intros Hd HL.
  assert (HL' : 0 < inject_Z L) by (now rewrite Zlt_Qlt in HL).
  split.
  - apply Qle_shift_div_l; [exact HL'|]. rewrite Qmult_0_l.
    change 0 with (inject_Z 0). rewrite <- Zle_Qle. lia.
  - apply Qle_shift_div_r; [exact HL'|]. rewrite Qmult_1_l.
    rewrite <- Zle_Qle. lia.
Qed.

Lemma similarityExpr_range (d L : Z) :
  (0 <= d <= L)%Z -> (0 < L)%Z -> (0 <= similarityExpr d L <= 100)%Z.
Proof.
  intros Hd HL. destruct (ratio_bounds d L Hd HL) as [Hq0 Hq1].
  unfold similarityExpr, mul, sub, div.
  set (q := round53 (inject_Z d / inject_Z L)).
  assert (Q0 : 0 <= q) by now apply round53_nonneg.
  assert (Q1 : q <= 1).
  { rewrite <- round53_1. now apply round53_mono. }
  set (s := round53 (1 - q)).
  assert (S0 : 0 <= s) by (apply round53_nonneg; lra).
  assert (S1 : s <= 1).
  { rewrite <- round53_1. apply round53_mono; lra. }
  set (p := round53 (s * 100)).
  assert (P1 : p <= 100).
  { rewrite <- round53_100. apply round53_mono; lra. }
  destruct (Math_max_0 p) as [M0 M1].
  apply Math_round_range; auto.
Qed.

Lemma similarityExpr_zero (L : Z) : similarityExpr 0 L = 100%Z.
Proof.
  unfold similarityExpr, div.
  rewrite (round53_zero (inject_Z 0 / inject_Z L)).
  - vm_compute. reflexivity.
  - unfold Qdiv. change (inject_Z 0) with 0. apply Qmult_0_l.
Qed.

End Range.

Lemma calculateWordSimilarity_range a b : 0 <= calculateWordSimilarity a b <= 100.
Proof.
  rewrite calculateWordSimilarity_eq. cbv zeta.
  destruct (Z.eqb_spec (Z.max (Z.of_nat (length a)) (Z.of_nat (length b))) 0) as [E|NE];
    [lia|].
  apply similarityExpr_range; [|lia].
  pose proof (levenshtein_le_max a b). lia.
Qed.

Lemma calculateWordSimilarity_same a : calculateWordSimilarity a a = 100.
Proof.
  rewrite calculateWordSimilarity_eq. cbv zeta.
  destruct (Z.max (Z.of_nat (length a)) (Z.of_nat (length a)) =? 0); [reflexivity|].
  rewrite levenshtein_refl. apply similarityExpr_zero.
Qed.

Lemma in_ratiosUpTo bound d L :
  In (d, L) (ratiosUpTo bound) <-> (d <= L)%nat /\ (0 < L <= bound)%nat.
Proof.
  unfold ratiosUpTo. rewrite in_flat_map. split.
  - intros (L' & HL & Hd). apply in_map_iff in Hd. destruct Hd as (d' & E & Hd).
    inversion E; subst. apply in_seq in HL, Hd. lia.
  - intros [Hd HL]. exists L. split; [apply in_seq; lia|].
    apply in_map_iff. exists d. split; [reflexivity|apply in_seq; lia].
Qed.

(** Below 40 code units the double-precision value is the exact one. *)
Lemma agrees_below_40 : agreesWithExact 39 = true.
Proof. vm_compute. reflexivity. Qed.

(** The rounding of [Num] is that of IEEE 754 binary64 on every ratio of
    lengths up to 64, and on every quotient of a total of similarities by
    a count up to 12. *)
Lemma agrees_with_binary64 : agreesWithBinary64 64 = true.
Proof. vm_compute. reflexivity. Qed.

Lemma quotient_agrees_with_binary64 : quotientAgreesWithBinary64 12 = true.
Proof. vm_compute. reflexivity. Qed.

Lemma similarityExpr_exact (d L : nat) :
  (d <= L)%nat -> (0 < L < 40)%nat ->
  similarityExpr (Z.of_nat d) (Z.of_nat L) = exactSimilarity (Z.of_nat d) (Z.of_nat L).
Proof.
  intros Hd HL. pose proof agrees_below_40 as H. unfold agreesWithExact in H.
  rewrite forallb_forall in H. apply Z.eqb_eq, (H (d, L)), in_ratiosUpTo. lia.
Qed.

(* ================================================================== *)
(** * Properties of the candidate sort *)

Lemma insertDesc_perm p l : Permutation (insertDesc p l) (p :: l).
Proof.
  induction l as [|q l IH]; simpl; [apply Permutation_refl|].
  destruct (pairSimilarity p <? pairSimilarity q).
  - rewrite IH. apply perm_swap.
  - apply Permutation_refl.
Qed.

Lemma sortDesc_perm l : Permutation (sortDesc l) l.
Proof.
  induction l as [|p l IH]; simpl; [constructor|].
  rewrite insertDesc_perm. now constructor.
Qed.

Lemma insertDesc_sorted p l : descending l -> descending (insertDesc p l).
Proof.
  unfold descending.
  induction 1 as [|q l Hs IH Hq]; simpl.
  - repeat constructor.
  - destruct (Z.ltb_spec (pairSimilarity p) (pairSimilarity q)) as [Hlt|Hge].
    + constructor; [exact IH|].
      rewrite Forall_forall in *. intros x Hx.
      apply (Permutation_in _ (insertDesc_perm p l)) in Hx.
      destruct Hx as [<-|Hx]; [lia|auto].
    + constructor; [now constructor|].
      constructor; [lia|].
      rewrite Forall_forall in *. intros x Hx.
      specialize (Hq x Hx). lia.
Qed.

Lemma sortDesc_sorted l : descending (sortDesc l).
Proof.
  induction l as [|p l IH]; simpl; [constructor|].
  now apply insertDesc_sorted.
Qed.

(** Stability: the pairs of any one similarity keep their order. *)
Lemma insertDesc_withSim v p l :
  descending l -> withSim v (insertDesc p l) = withSim v (p :: l).
Proof.
  unfold descending, withSim.
  induction 1 as [|q l Hs IH Hq]; [reflexivity|].
  simpl. destruct (Z.ltb_spec (pairSimilarity p) (pairSimilarity q)) as [Hlt|Hge];
    [|reflexivity].
  simpl. rewrite IH. simpl.
  destruct (Z.eqb_spec (pairSimilarity q) v), (Z.eqb_spec (pairSimilarity p) v);
    try reflexivity.
  lia.
Qed.

Lemma sortDesc_stable v l : withSim v (sortDesc l) = withSim v l.
Proof.
  induction l as [|p l IH]; [reflexivity|].
  simpl sortDesc. rewrite insertDesc_withSim by apply sortDesc_sorted.
  unfold withSim in *. simpl. now rewrite IH.
Qed.


(* ================================================================== *)
(** * The greedy sweep *)

Lemma has_In s i : has s i = true <-> In i s.
Proof.
  unfold has. rewrite existsb_exists. split.
  - intros (x & Hx & E). apply Nat.eqb_eq in E. now subst.
  - intros H. exists i. split; [exact H|apply Nat.eqb_refl].
Qed.

Lemma has_false s i : has s i = false <-> ~ In i s.
Proof.
  rewrite <- has_In. destruct (has s i); split; intros; congruence.
Qed.

Lemma NoDup_snoc {A} (l : list A) x : NoDup l -> ~ In x l -> NoDup (l ++ [x]).
Proof.
  intros Hl Hx. apply NoDup_rev in Hl.
  rewrite <- (rev_involutive (l ++ [x])). apply NoDup_rev.
  rewrite rev_app_distr. simpl. constructor; [|exact Hl].
  now rewrite <- in_rev.
Qed.

Lemma greedyStep_inv src st p : src p -> Inv src st -> Inv src (greedyStep st p).
Proof.
  intros Hp [Hr Hs Hnr Hns Hsrc]. unfold greedyStep.
  destruct (has (matchedRef st) (refIdx p)) eqn:Er; simpl; [now constructor|].
  destruct (has (matchedSpoken st) (spokenIdx p)) eqn:Es; simpl; [now constructor|].
  destruct (Z.leb_spec MIN_SIMILARITY_THRESHOLD (pairSimilarity p)) as [Hge|Hlt];
    [|now constructor].
  apply has_false in Er, Es. rewrite Hr, <- in_rev in Er. rewrite Hs, <- in_rev in Es.
  constructor; simpl.
  - rewrite map_app, rev_app_distr. simpl. now f_equal.
  - rewrite map_app, rev_app_distr. simpl. now f_equal.
  - rewrite map_app. now apply NoDup_snoc.
  - rewrite map_app. now apply NoDup_snoc.
  - apply Forall_app. split; [exact Hsrc|]. now repeat constructor.
Qed.

Lemma fold_greedy_inv src pairs st :
  Forall src pairs -> Inv src st -> Inv src (fold_left greedyStep pairs st).
Proof.
  intros H. revert st. induction H as [|p pairs Hp _ IH]; intros st Hst; simpl.
  - exact Hst.
  - apply IH. now apply greedyStep_inv.
Qed.

Lemma greedy_inv src pairs : Forall src pairs -> Inv src (greedy pairs).
Proof.
  intros H. apply fold_greedy_inv; [exact H|].
  constructor; simpl; try reflexivity; constructor.
Qed.

(** ** Candidate pairs *)

Lemma matrixAt_similarity referenceWords spokenWords i j :
  (i < length referenceWords)%nat -> (j < length spokenWords)%nat ->
  matrixAt (similarityMatrix referenceWords spokenWords) i j
  = calculateWordSimilarity (word referenceWords i) (word spokenWords j).
Proof.
  intros Hi Hj. unfold matrixAt, similarityMatrix, word.
  rewrite (nth_indep _ []
             (map (fun s => calculateWordSimilarity [] s) spokenWords))
    by now rewrite length_map.
  rewrite (map_nth (fun r => map (fun s => calculateWordSimilarity r s) spokenWords)).
  rewrite (nth_indep _ 0 (calculateWordSimilarity (nth i referenceWords []) []))
    by now rewrite length_map.
  now rewrite (map_nth (fun s => calculateWordSimilarity (nth i referenceWords []) s)).
Qed.

Lemma in_allPairs m n M p :
  In p (allPairs m n M) <->
  (refIdx p < m)%nat /\ (spokenIdx p < n)%nat
  /\ pairSimilarity p = matrixAt M (refIdx p) (spokenIdx p).
Proof.
  unfold allPairs. rewrite in_flat_map. split.
  - intros (i & Hi & Hp). apply in_map_iff in Hp. destruct Hp as (j & <- & Hj).
    apply in_seq in Hi, Hj. simpl. repeat split; lia.
  - intros (Hi & Hj & Hs). exists (refIdx p). split; [apply in_seq; lia|].
    apply in_map_iff. exists (spokenIdx p). split; [|apply in_seq; lia].
    destruct p; simpl in *. now subst.
Qed.

Lemma candidates_src r s : Forall (candidateOf r s) (candidates r s).
Proof.
  apply Forall_forall. intros p Hp. unfold candidates in Hp.
  apply (Permutation_in _ (sortDesc_perm _)) in Hp.
  apply in_allPairs in Hp. destruct Hp as (Hi & Hj & Hs).
  unfold candidateOf. rewrite Hs, matrixAt_similarity by assumption. auto.
Qed.

Lemma matches_inv r s : Inv (candidateOf r s) (greedy (candidates r s)).
Proof. apply greedy_inv, candidates_src. Qed.

(* ================================================================== *)
(** * The alignment and its trace *)

Lemma alignWords_general r s :
  r <> [] -> s <> [] ->
  alignWords r s
  = map (refEntry r s (matches (greedy (candidates r s)))) (seq 0 (length r))
    ++ map (extraEntry s)
           (filter (fun j => negb (has (matchedSpoken (greedy (candidates r s))) j))
                   (seq 0 (length s))).
Proof. destruct r, s; intros; try congruence; reflexivity. Qed.

Lemma alignTrace_general r s :
  r <> [] -> s <> [] ->
  alignTrace r s
  = map (refTag (matches (greedy (candidates r s)))) (seq 0 (length r))
    ++ map Extra
           (filter (fun j => negb (has (matchedSpoken (greedy (candidates r s))) j))
                   (seq 0 (length s))).
Proof. destruct r, s; intros; try congruence; reflexivity. Qed.

Lemma map_word_seq {B} (f : jsstring -> B) ws :
  map (fun i => f (word ws i)) (seq 0 (length ws)) = map f ws.
Proof.
  unfold word. induction ws as [|w ws IH]; [reflexivity|].
  simpl. f_equal. rewrite <- seq_shift, map_map. exact IH.
Qed.

Lemma alignWords_render r s :
  alignWords r s = map (render r s) (alignTrace r s).
Proof.
  destruct r as [|a r], s as [|b s].
  - reflexivity.
  - unfold alignWords, alignTrace. cbn [length]. rewrite map_map. cbn [render].
    symmetry. apply (map_word_seq (fun w => mkEntry extraMark w 0) (b :: s)).
  - unfold alignWords, alignTrace. cbn [length]. rewrite map_map. cbn [render].
    symmetry. apply (map_word_seq (fun w => mkEntry w missingMark 0) (a :: r)).
  - rewrite alignWords_general, alignTrace_general by discriminate.
    rewrite map_app, !map_map. f_equal.
    apply map_ext. intros i. unfold refEntry, refTag.
    now destruct (findMatch _ i).
Qed.

Lemma refIndices_app t1 t2 : refIndices (t1 ++ t2) = refIndices t1 ++ refIndices t2.
Proof. apply flat_map_app. Qed.

Lemma spokenIndices_app t1 t2 :
  spokenIndices (t1 ++ t2) = spokenIndices t1 ++ spokenIndices t2.
Proof. apply flat_map_app. Qed.

Lemma refIndices_refTag ms l : refIndices (map (refTag ms) l) = l.
Proof.
  induction l as [|i l IH]; [reflexivity|].
  simpl. unfold refTag at 1. destruct (findMatch ms i); simpl; now f_equal.
Qed.

Lemma refIndices_Extra l : refIndices (map Extra l) = [].
Proof. induction l; simpl; auto. Qed.

Lemma refIndices_Missing l : refIndices (map Missing l) = l.
Proof. induction l; simpl; now f_equal. Qed.

Lemma spokenIndices_Extra l : spokenIndices (map Extra l) = l.
Proof. induction l; simpl; now f_equal. Qed.

Lemma spokenIndices_Missing l : spokenIndices (map Missing l) = [].
Proof. induction l; simpl; auto. Qed.

Lemma findMatch_Some ms i p :
  findMatch ms i = Some p -> In p ms /\ refIdx p = i.
Proof.
  unfold findMatch. intros H. apply find_some in H. destruct H as [H E].
  apply Nat.eqb_eq in E. now split.
Qed.

Lemma map_injective_on_NoDup {A B} (f : A -> B) l x y :
  NoDup (map f l) -> In x l -> In y l -> f x = f y -> x = y.
Proof.
  induction l as [|a l IH]; simpl; [tauto|].
  intros Hnd Hx Hy E. inversion Hnd as [|? ? Hna Hnd']; subst.
  destruct Hx as [->|Hx], Hy as [->|Hy]; auto.
  - exfalso. apply Hna. rewrite E. now apply in_map.
  - exfalso. apply Hna. rewrite <- E. now apply in_map.
Qed.

Lemma findMatch_In ms p :
  NoDup (map refIdx ms) -> In p ms -> findMatch ms (refIdx p) = Some p.
Proof.
  intros Hnd Hp. unfold findMatch.
  destruct (find (fun q => refIdx q =? refIdx p)%nat ms) as [q|] eqn:E.
  - apply find_some in E. destruct E as [Hq E]. apply Nat.eqb_eq in E.
    f_equal. now apply (map_injective_on_NoDup refIdx ms).
  - exfalso. apply (find_none _ _ E) in Hp. now rewrite Nat.eqb_refl in Hp.
Qed.

(** The spoken indices carried by the reference part of the trace are
    those of the recorded matches. *)
Lemma in_spokenIndices_refTag src ms m j :
  NoDup (map refIdx ms) ->
  Forall (fun p => (refIdx p < m)%nat /\ src p) ms ->
  In j (spokenIndices (map (refTag ms) (seq 0 m))) <-> In j (map spokenIdx ms).
Proof.
  intros Hnd Hsrc. unfold spokenIndices. rewrite in_flat_map. split.
  - intros (t & Ht & Hj). apply in_map_iff in Ht. destruct Ht as (i & <- & Hi).
    unfold refTag in Hj. destruct (findMatch ms i) as [p|] eqn:E; simpl in Hj;
      [|contradiction].
    destruct Hj as [<-|[]]. apply in_map. now apply findMatch_Some in E.
  - intros Hj. apply in_map_iff in Hj. destruct Hj as (p & <- & Hp).
    exists (refTag ms (refIdx p)). split.
    + apply in_map, in_seq. rewrite Forall_forall in Hsrc.
      destruct (Hsrc p Hp). lia.
    + unfold refTag. rewrite (findMatch_In ms p Hnd Hp). simpl. auto.
Qed.

Lemma NoDup_spokenIndices_refTag ms l :
  NoDup (map spokenIdx ms) -> NoDup l ->
  NoDup (spokenIndices (map (refTag ms) l)).
Proof.
  intros Hns. induction 1 as [|i l Hi Hl IH]; simpl; [constructor|].
  unfold refTag at 1. destruct (findMatch ms i) as [p|] eqn:E; simpl; [|exact IH].
  constructor; [|exact IH].
  intros Hin. unfold spokenIndices in Hin. apply in_flat_map in Hin.
  destruct Hin as (t & Ht & Hj). apply in_map_iff in Ht.
  destruct Ht as (i' & <- & Hi'). unfold refTag in Hj.
  destruct (findMatch ms i') as [q|] eqn:E'; simpl in Hj; [|contradiction].
  destruct Hj as [Hj|[]].
  apply findMatch_Some in E, E'. destruct E as [Hp <-], E' as [Hq <-].
  assert (q = p) by now apply (map_injective_on_NoDup spokenIdx ms).
  subst q. contradiction.
Qed.

Lemma Inv_bounds r s st :
  Inv (candidateOf r s) st ->
  Forall (fun p => (refIdx p < length r)%nat /\ (spokenIdx p < length s)%nat) (matches st).
Proof.
  intros [_ _ _ _ H]. eapply Forall_impl; [|exact H].
  intros p [(Hi & Hj & _) _]. auto.
Qed.

Lemma partition_spoken r s :
  Permutation (spokenIndices (alignTrace r s)) (seq 0 (length s)).
Proof.
  destruct r as [|a r], s as [|b s].
  - reflexivity.
  - unfold alignTrace. cbn [length]. now rewrite spokenIndices_Extra.
  - unfold alignTrace. cbn [length]. now rewrite spokenIndices_Missing.
  - rewrite alignTrace_general by discriminate.
    rewrite spokenIndices_app, spokenIndices_Extra.
    pose proof (matches_inv (a :: r) (b :: s)) as HI.
    pose proof (Inv_bounds _ _ _ HI) as Hb.
    destruct HI as [Hr Hs Hnr Hns Hsrc].
    set (st := greedy (candidates (a :: r) (b :: s))) in *.
    assert (Hmem : forall j,
               In j (spokenIndices (map (refTag (matches st)) (seq 0 (length (a :: r)))))
               <-> In j (matchedSpoken st)).
    { intros j.
      rewrite (in_spokenIndices_refTag (fun p => (spokenIdx p < length (b :: s))%nat));
        [|exact Hnr|exact Hb].
      rewrite Hs. apply in_rev. }
    apply NoDup_Permutation.
    + apply NoDup_app.
      * apply NoDup_spokenIndices_refTag; [exact Hns|apply seq_NoDup].
      * apply NoDup_filter, seq_NoDup.
      * intros j Hj Hj'. apply Hmem in Hj. apply filter_In in Hj'.
        destruct Hj' as [_ Hj']. apply negb_true_iff, has_false in Hj'. contradiction.
    + apply seq_NoDup.
    + intros j. rewrite in_app_iff, Hmem, filter_In, negb_true_iff, has_false, in_seq.
      split.
      * intros [Hj|[Hj _]]; [|lia].
        rewrite Hs, <- in_rev in Hj. apply in_map_iff in Hj.
        destruct Hj as (p & <- & Hp). rewrite Forall_forall in Hb.
        destruct (Hb p Hp). lia.
      * intros Hj. destruct (in_dec Nat.eq_dec j (matchedSpoken st)); [now left|].
        right. split; [lia|assumption].
Qed.

Lemma partition_ref r s : refIndices (alignTrace r s) = seq 0 (length r).
Proof.
  destruct r as [|a r], s as [|b s].
  - reflexivity.
  - unfold alignTrace. cbn [length]. now rewrite refIndices_Extra.
  - unfold alignTrace. cbn [length]. now rewrite refIndices_Missing.
  - rewrite alignTrace_general by discriminate.
    now rewrite refIndices_app, refIndices_refTag, refIndices_Extra, app_nil_r.
Qed.

(** ** What the entries of the trace are *)

Lemma in_trace_Matched r s i j v :
  In (Matched i j v) (alignTrace r s) ->
  In (mkPair i j v) (matches (greedy (candidates r s)))
  /\ (i < length r)%nat /\ (j < length s)%nat
  /\ MIN_SIMILARITY_THRESHOLD <= v
  /\ v = calculateWordSimilarity (word r i) (word s j).
Proof.
  destruct r as [|a r], s as [|b s].
  - intros [].
  - unfold alignTrace. cbn [length]. intros H. apply in_map_iff in H.
    destruct H as (? & ? & _). discriminate.
  - unfold alignTrace. cbn [length]. intros H. apply in_map_iff in H.
    destruct H as (? & ? & _). discriminate.
  - rewrite alignTrace_general by discriminate. intros H.
    apply in_app_or in H. destruct H as [H|H].
    2:{ apply in_map_iff in H. destruct H as (? & ? & _). discriminate. }
    apply in_map_iff in H. destruct H as (i' & E & _).
    unfold refTag in E. destruct (findMatch _ i') as [p|] eqn:F; [|discriminate].
    apply findMatch_Some in F. destruct F as [Hp Hi]. inversion E; subst.
    destruct (matches_inv (a :: r) (b :: s)) as [_ _ _ _ Hsrc].
    rewrite Forall_forall in Hsrc. destruct (Hsrc p Hp) as [(Hi & Hj & Hv) Hge].
    destruct p; simpl in *. auto.
Qed.

Lemma in_trace_ref r s i :
  (i < length r)%nat -> s <> [] ->
  In (refTag (matches (greedy (candidates r s))) i) (alignTrace r s).
Proof.
  intros Hi Hs. assert (r <> []) by (destruct r; simpl in Hi; [lia|discriminate]).
  rewrite alignTrace_general by assumption.
  apply in_or_app. left. apply in_map, in_seq. lia.
Qed.

Lemma in_trace_matched_pair r s p :
  In p (matches (greedy (candidates r s))) ->
  In (Matched (refIdx p) (spokenIdx p) (pairSimilarity p)) (alignTrace r s).
Proof.
  intros Hp. pose proof (matches_inv r s) as HI.
  pose proof (Inv_bounds _ _ _ HI) as Hb. destruct HI as [_ _ Hnr _ _].
  rewrite Forall_forall in Hb. destruct (Hb p Hp) as [Hi Hj].
  assert (s <> []) by (destruct s; simpl in Hj; [lia|discriminate]).
  pose proof (in_trace_ref r s (refIdx p) Hi H) as Ht.
  unfold refTag in Ht. now rewrite (findMatch_In _ p Hnr Hp) in Ht.
Qed.

Lemma in_trace_Extra r s j :
  (j < length s)%nat -> r <> [] ->
  ~ In j (matchedSpoken (greedy (candidates r s))) ->
  In (Extra j) (alignTrace r s).
Proof.
  intros Hj Hr Hn. assert (s <> []) by (destruct s; simpl in Hj; [lia|discriminate]).
  rewrite alignTrace_general by assumption.
  apply in_or_app. right. apply in_map, filter_In. split; [apply in_seq; lia|].
  now apply negb_true_iff, has_false.
Qed.

Lemma StronglySorted_seq a n : StronglySorted lt (seq a n).
Proof.
  revert a. induction n as [|n IH]; intros a; simpl; constructor; [apply IH|].
  apply Forall_forall. intros x Hx. apply in_seq in Hx. lia.
Qed.

Lemma StronglySorted_filter {A} (R : A -> A -> Prop) f l :
  StronglySorted R l -> StronglySorted R (filter f l).
Proof.
  induction 1 as [|x l Hs IH Hx]; simpl; [constructor|].
  destruct (f x); [|exact IH]. constructor; [exact IH|].
  rewrite Forall_forall in *. intros y Hy. apply filter_In in Hy. now apply Hx.
Qed.

Lemma Forall_refTag ms l : Forall (fun t => isRefTag t = true) (map (refTag ms) l).
Proof.
  apply Forall_forall. intros t Ht. apply in_map_iff in Ht.
  destruct Ht as (i & <- & _). unfold refTag. now destruct (findMatch ms i).
Qed.

Lemma Forall_Extra l : Forall (fun t => isExtraTag t = true) (map Extra l).
Proof.
  apply Forall_forall. intros t Ht. apply in_map_iff in Ht.
  now destruct Ht as (i & <- & _).
Qed.

Lemma Forall_Missing l : Forall (fun t => isRefTag t = true) (map Missing l).
Proof.
  apply Forall_forall. intros t Ht. apply in_map_iff in Ht.
  now destruct Ht as (i & <- & _).
Qed.



Lemma in_trace_bounds r s t :
  In t (alignTrace r s) ->
  match t with
  | Matched i j _ => (i < length r)%nat /\ (j < length s)%nat
  | Missing i => (i < length r)%nat
  | Extra j => (j < length s)%nat
  end.
Proof.
  intros Ht.
  assert (Hr : forall i, In i (refIndices [t]) -> (i < length r)%nat).
  { intros i Hi. assert (In i (refIndices (alignTrace r s))).
    { unfold refIndices in *. apply in_flat_map. exists t. split; [exact Ht|].
      simpl in Hi. now rewrite app_nil_r in Hi. }
    rewrite partition_ref in H. apply in_seq in H. lia. }
  assert (Hs : forall j, In j (spokenIndices [t]) -> (j < length s)%nat).
  { intros j Hj. assert (In j (spokenIndices (alignTrace r s))).
    { unfold spokenIndices in *. apply in_flat_map. exists t. split; [exact Ht|].
      simpl in Hj. now rewrite app_nil_r in Hj. }
    apply (Permutation_in _ (partition_spoken r s)) in H. apply in_seq in H. lia. }
  destruct t; simpl in *; auto.
Qed.

Lemma word_In ws i : (i < length ws)%nat -> In (word ws i) ws.
Proof. intros. now apply nth_In. Qed.


(* ================================================================== *)
(** * Identical sequences *)

Lemma filter_none {A} (f : A -> bool) l :
  Forall (fun x => f x = false) l -> filter f l = [].
Proof. induction 1 as [|x l Hx _ IH]; simpl; [|rewrite Hx]; auto. Qed.

Lemma filter_all {A} (f : A -> bool) l :
  Forall (fun x => f x = true) l -> filter f l = l.
Proof. induction 1 as [|x l Hx _ IH]; simpl; [|rewrite Hx, IH]; auto. Qed.

Lemma descending_split v l :
  descending l -> Forall (fun p => pairSimilarity p <= v) l ->
  l = withSim v l ++ below v l.
Proof.
  unfold descending, withSim, below.
  induction 1 as [|p l Hs IH Hp]; intros Hv; [reflexivity|].
  inversion Hv as [|? ? Hpv Hlv]; subst. simpl.
  destruct (Z.eqb_spec (pairSimilarity p) v) as [E|NE].
  - destruct (Z.ltb_spec (pairSimilarity p) v); [lia|].
    simpl. f_equal. now apply IH.
  - destruct (Z.ltb_spec (pairSimilarity p) v); [|lia].
    rewrite (filter_none (fun q => pairSimilarity q =? v)).
    + rewrite (filter_all (fun q => pairSimilarity q <? v)); [reflexivity|].
      eapply Forall_impl; [|exact Hp]. intros q Hq. cbv beta in Hq. apply Z.ltb_lt. lia.
    + eapply Forall_impl; [|exact Hp]. intros q Hq. cbv beta in Hq. apply Z.eqb_neq. lia.
Qed.

Lemma greedy_skip l st :
  Forall (fun p => In (refIdx p) (matchedRef st) \/ In (spokenIdx p) (matchedSpoken st)) l ->
  fold_left greedyStep l st = st.
Proof.
  induction 1 as [|p l Hp _ IH]; [reflexivity|]. simpl.
  assert (E : greedyStep st p = st).
  { unfold greedyStep. destruct Hp as [H|H]; apply has_In in H; rewrite H; simpl;
      [reflexivity|now rewrite andb_false_r]. }
  now rewrite E.
Qed.

Lemma withSim_app v l1 l2 : withSim v (l1 ++ l2) = withSim v l1 ++ withSim v l2.
Proof. apply filter_app. Qed.

Lemma withSim_flat_map {A} v (f : A -> list Pair) l :
  withSim v (flat_map f l) = flat_map (fun a => withSim v (f a)) l.
Proof.
  induction l as [|a l IH]; [reflexivity|].
  simpl. now rewrite withSim_app, IH.
Qed.

Lemma withSim_allPairs v m n M :
  withSim v (allPairs m n M) = flat_map (fun i => withSim v (row n M i)) (seq 0 m).
Proof. unfold allPairs. apply withSim_flat_map. Qed.

Lemma diagonal_S k :
  diagonal (S k)
  = mkState (k :: matchedRef (diagonal k)) (k :: matchedSpoken (diagonal k))
            (matches (diagonal k) ++ [mkPair k k 100]).
Proof.
  unfold diagonal. cbn [matchedRef matchedSpoken matches].
  rewrite seq_S, rev_app_distr, map_app. reflexivity.
Qed.

Lemma row_sweep n M i :
  (i < n)%nat -> matrixAt M i i = 100 ->
  fold_left greedyStep (withSim 100 (row n M i)) (diagonal i) = diagonal (S i).
Proof.
  intros Hi Hd. unfold row.
  replace n with (i + S (n - S i))%nat by lia.
  rewrite seq_app, map_app, withSim_app, fold_left_app.
  assert (E1 : fold_left greedyStep
                 (withSim 100 (map (fun j => mkPair i j (matrixAt M i j)) (seq 0 i)))
                 (diagonal i) = diagonal i).
  { apply greedy_skip.
    apply Forall_forall. intros p Hp. apply filter_In in Hp. destruct Hp as [Hp _].
    apply in_map_iff in Hp. destruct Hp as (j & <- & Hj). right. simpl.
    now rewrite <- in_rev. }
  rewrite E1. cbn [seq map Nat.add].
  unfold withSim. cbn [filter pairSimilarity]. rewrite Hd, Z.eqb_refl.
  cbn [fold_left].
  assert (E : greedyStep (diagonal i) (mkPair i i 100) = diagonal (S i)).
  { unfold greedyStep. cbn [refIdx spokenIdx pairSimilarity].
    assert (Hn : has (rev (seq 0 i)) i = false).
    { apply has_false. rewrite <- in_rev, in_seq. lia. }
    cbn [diagonal matchedRef matchedSpoken]. rewrite Hn. cbn [negb andb].
    change (MIN_SIMILARITY_THRESHOLD <=? 100) with true. cbv iota.
    now rewrite diagonal_S. }
  rewrite E. apply greedy_skip.
  apply Forall_forall. intros p Hp. apply filter_In in Hp. destruct Hp as [Hp _].
  apply in_map_iff in Hp. destruct Hp as (j & <- & Hj). left.
  rewrite diagonal_S. simpl. auto.
Qed.

Lemma rows_sweep n M k :
  (k <= n)%nat -> (forall i, (i < n)%nat -> matrixAt M i i = 100) ->
  fold_left greedyStep (flat_map (fun i => withSim 100 (row n M i)) (seq 0 k))
            (diagonal 0)
  = diagonal k.
Proof.
  intros Hk Hd. induction k as [|k IH]; [reflexivity|].
  rewrite seq_S, flat_map_app, fold_left_app, IH by lia.
  cbn [flat_map Nat.add]. rewrite app_nil_r. apply row_sweep; [lia|]. apply Hd. lia.
Qed.

Lemma greedy_identical ws :
  greedy (candidates ws ws) = diagonal (length ws).
Proof.
  unfold candidates, greedy. set (m := length ws).
  set (M := similarityMatrix ws ws).
  assert (Hle : Forall (fun p => pairSimilarity p <= 100) (sortDesc (allPairs m m M))).
  { apply Forall_forall. intros p Hp.
    pose proof (candidates_src ws ws) as Hc. rewrite Forall_forall in Hc.
    destruct (Hc p Hp) as (_ & _ & ->). apply calculateWordSimilarity_range. }
  rewrite (descending_split 100 _ (sortDesc_sorted _) Hle).
  rewrite sortDesc_stable, fold_left_app.
  rewrite withSim_allPairs.
  change (mkState [] [] []) with (diagonal 0).
  rewrite (rows_sweep m M m (le_n m)).
  - apply greedy_skip. apply Forall_forall. intros p Hp. unfold below in Hp.
    apply filter_In in Hp. destruct Hp as [Hp _].
    apply (Permutation_in _ (sortDesc_perm _)) in Hp. apply in_allPairs in Hp.
    left. unfold diagonal. cbn [matchedRef]. rewrite <- in_rev, in_seq. lia.
  - intros i Hi. unfold M. rewrite matrixAt_similarity by exact Hi.
    apply calculateWordSimilarity_same.
Qed.

Lemma findMatch_diagonal k i :
  (i < k)%nat -> findMatch (matches (diagonal k)) i = Some (mkPair i i 100).
Proof.
  intros Hi. apply (findMatch_In _ (mkPair i i 100)).
  - unfold diagonal. cbn [matches]. rewrite map_map. cbn [refIdx].
    rewrite map_id. apply seq_NoDup.
  - unfold diagonal. cbn [matches]. apply in_map_iff. exists i.
    split; [reflexivity|apply in_seq; lia].
Qed.

Lemma alignTrace_identical ws :
  alignTrace ws ws = map (fun i => Matched i i 100) (seq 0 (length ws)).
Proof.
  destruct ws as [|w ws]; [reflexivity|].
  rewrite alignTrace_general by discriminate.
  rewrite greedy_identical.
  assert (Hf : filter (fun j => negb (has (matchedSpoken (diagonal (length (w :: ws)))) j))
                      (seq 0 (length (w :: ws))) = []).
  { generalize (length (w :: ws)) as m. intros m.
    assert (H : forall l, (forall j, In j l -> (j < m)%nat) ->
              filter (fun j => negb (has (matchedSpoken (diagonal m)) j)) l = []).
    { induction l as [|j l IH]; intros Hl; [reflexivity|]. cbn [filter].
      assert (E : has (matchedSpoken (diagonal m)) j = true).
      { apply has_In. unfold diagonal. cbn [matchedSpoken].
        rewrite <- in_rev, in_seq. specialize (Hl j (or_introl eq_refl)). lia. }
      rewrite E. cbn [negb]. apply IH. intros. apply Hl. now right. }
    apply H. intros j Hj. apply in_seq in Hj. lia. }
  rewrite Hf, app_nil_r. apply map_ext_in. intros i Hi. apply in_seq in Hi.
  unfold refTag. rewrite findMatch_diagonal by lia. reflexivity.
Qed.

Lemma alignWords_identical ws :
  alignWords ws ws = map (fun w => mkEntry w w 100) ws.
Proof.
  rewrite alignWords_render, alignTrace_identical, map_map. cbn [render].
  apply (map_word_seq (fun w => mkEntry w w 100)).
Qed.

(* ================================================================== *)
(** * The overall score *)

Lemma totalScore_sum wss : totalScore wss = sumScores wss.
Proof.
  unfold totalScore, sumScores.
  enough (H : forall acc, fold_left (fun sum ws => sum + score ws) wss acc
                          = acc + fold_right Z.add 0 (map score wss))
    by (rewrite H; lia).
  induction wss as [|ws wss IH]; intros acc; simpl; [lia|].
  rewrite IH. lia.
Qed.

Lemma sumScores_bounds wss :
  Forall (fun ws => 0 <= score ws <= 100) wss ->
  0 <= sumScores wss <= 100 * Z.of_nat (length wss).
Proof.
  unfold sumScores. induction 1 as [|ws wss Hws _ IH]; simpl length; simpl; lia.
Qed.

Section Mean.
Import Num NumFacts.
Local Open Scope Q_scope.

Lemma Qfloor_unique y (k : Z) :
  inject_Z k <= y -> y < inject_Z (k + 1) -> Qfloor y = k.
Proof.
  intros Hlo Hhi.
  pose proof (Qfloor_resp_le _ _ Hlo) as H1. rewrite Qfloor_Z in H1.
  pose proof (Qfloor_le y) as H2.
  assert (H3 : inject_Z (Qfloor y) < inject_Z (k + 1))
    by (eapply Qle_lt_trans; eassumption).
  rewrite <- Zlt_Qlt in H3. lia.
Qed.

(** A division whose exact quotient lies in [0, 100] and whose divisor
    is at most 2^45 rounds, after [Math.round], as the exact quotient
    does. *)
Lemma Math_round_div_exact (t n : Z) :
  (0 < n <= 2 ^ 45)%Z -> (0 <= t <= 100 * n)%Z ->
  Math_round (div (inject_Z t) (inject_Z n))
  = Qfloor (inject_Z t / inject_Z n + (1 # 2)).
Proof.
  intros Hn Ht. unfold Math_round, div.
  set (x := inject_Z t / inject_Z n).
  set (k := Qfloor (x + (1 # 2))).
  assert (HN : 0 < inject_Z n) by (rewrite Zlt_Qlt in Hn; apply Hn).
  assert (HxN : x * inject_Z n == inject_Z t).
  { unfold x. field. intros E. rewrite E in HN. discriminate. }
  assert (Hx0 : 0 <= x).
  { unfold x. apply Qle_shift_div_l; [exact HN|]. rewrite Qmult_0_l.
    change 0 with (inject_Z 0). rewrite <- Zle_Qle. lia. }
  assert (Hx100 : x <= 100).
  { unfold x. apply Qle_shift_div_r; [exact HN|].
    change 100 with (inject_Z 100). rewrite <- inject_Z_mult, <- Zle_Qle. lia. }
  pose proof (Qfloor_le (x + (1 # 2))) as Hk1.
  pose proof (Qlt_floor (x + (1 # 2))) as Hk2. fold k in Hk1, Hk2.
  rewrite inject_Z_plus in Hk2. change (inject_Z 1) with 1 in Hk2.
  assert (Hk : (0 <= k <= 100)%Z).
  { split.
    - change 0%Z with (Qfloor 0). apply Qfloor_resp_le. lra.
    - change 100%Z with (Qfloor (100 + (1 # 2))). apply Qfloor_resp_le. lra. }
  clearbody k. apply Qfloor_unique.
  - (* lower side *)
    destruct (Z.eq_dec k 0) as [E|NE].
    + rewrite E. pose proof (round53_nonneg x Hx0). change (inject_Z 0) with 0. lra.
    + assert (Hrep : round53 (inject_Z (2 * k - 1) * pow2 (-1))
                     == inject_Z (2 * k - 1) * pow2 (-1)).
      { apply round53_representable. split; [lia|].
        apply Z.le_lt_trans with 199%Z; [lia|reflexivity]. }
      assert (Hval : inject_Z (2 * k - 1) * pow2 (-1) == inject_Z k - (1 # 2)).
      { change (pow2 (-1)) with (1 # 2).
        unfold Z.sub. rewrite inject_Z_plus, inject_Z_mult.
        change (inject_Z 2) with 2. change (inject_Z (- (1))) with (- (1)). ring. }
      assert (Hmono : round53 (inject_Z (2 * k - 1) * pow2 (-1)) <= round53 x).
      { apply round53_mono; rewrite Hval.
        - assert (1 <= inject_Z k) by (change 1 with (inject_Z 1); rewrite <- Zle_Qle; lia).
          lra.
        - lra. }
      rewrite Hrep, Hval in Hmono. lra.
  - (* upper side *)
    rewrite inject_Z_plus. change (inject_Z 1) with 1.
    set (M := (k * 2 ^ 46 + 2 ^ 45 - 1)%Z).
    assert (Hrep : round53 (inject_Z M * pow2 (-46)) == inject_Z M * pow2 (-46)).
    { apply round53_representable. unfold M. split; [lia|].
      apply Z.le_lt_trans with (100 * 2 ^ 46 + 2 ^ 45 - 1)%Z; [lia|reflexivity]. }
    assert (HM : inject_Z M == 2 * inject_Z k * inject_Z (2 ^ 45) + inject_Z (2 ^ 45) - 1).
    { unfold M, Z.sub. rewrite !inject_Z_plus, inject_Z_mult.
      change (inject_Z (2 ^ 46)) with (2 * inject_Z (2 ^ 45)).
      change (inject_Z (- (1))) with (- (1)). ring. }
    assert (Hn45 : inject_Z n <= inject_Z (2 ^ 45)) by (rewrite <- Zle_Qle; lia).
    assert (Hp : 0 < pow2 (-46)) by apply pow2_pos.
    assert (Hcp : inject_Z (2 ^ 45) * pow2 (-46) == 1 # 2) by reflexivity.
    revert Hrep HM Hn45 Hp Hcp.
    generalize (pow2 (-46)) as p. generalize (inject_Z (2 ^ 45)) as c.
    generalize (inject_Z M) as m. clear M. intros m c p Hrep HM Hn45 Hp Hcp.
    assert (Hval : m * p == inject_Z k + (1 # 2) - p).
    { rewrite HM.
      setoid_replace ((2 * inject_Z k * c + c - 1) * p)
        with (2 * inject_Z k * (c * p) + c * p - p) by ring.
      rewrite Hcp. ring. }
    assert (Hint : (2 * t + 1 <= (2 * k + 1) * n)%Z).
    { enough (2 * t < (2 * k + 1) * n)%Z by lia.
      rewrite Zlt_Qlt, !inject_Z_mult, inject_Z_plus, inject_Z_mult.
      change (inject_Z 2) with 2. change (inject_Z 1) with 1.
      rewrite <- HxN. nra. }
    assert (HintQ : 2 * inject_Z t + 1 <= (2 * inject_Z k + 1) * inject_Z n).
    { rewrite Zle_Qle in Hint.
      rewrite inject_Z_plus, !inject_Z_mult, inject_Z_plus, inject_Z_mult in Hint.
      exact Hint. }
    assert (HpN : p * inject_Z n <= 1 # 2).
    { rewrite <- Hcp. rewrite (Qmult_comm c p).
      apply Qmult_le_l; assumption. }
    assert (Hle : x <= m * p).
    { rewrite Hval. unfold x. apply Qle_shift_div_r; [exact HN|]. nra. }
    pose proof (round53_mono x _ Hx0 Hle) as Hmono.
    rewrite Hrep, Hval in Hmono. lra.
Qed.

End Mean.

Lemma overallScoreOf_exact wss :
  Forall (fun ws => 0 <= score ws <= 100) wss ->
  Z.of_nat (length wss) <= 2 ^ 32 ->
  overallScoreOf wss
  = match wss with
    | [] => 0
    | _ => roundedMean (sumScores wss) (length wss)
    end.
Proof.
  intros Hs Hlen. unfold overallScoreOf, roundedMean.
  destruct wss as [|ws wss]; [reflexivity|].
  change (0 <? length (ws :: wss))%nat with true. cbv iota.
  rewrite totalScore_sum.
  pose proof (sumScores_bounds _ Hs) as Hb.
  apply Math_round_div_exact; [|exact Hb].
  assert (2 ^ 32 <= 2 ^ 45) by (apply Z.pow_le_mono_r; lia).
  simpl length in *. lia.
Qed.

Lemma overallScoreOf_100 wss :
  wss <> [] -> Forall (fun ws => score ws = 100) wss -> overallScoreOf wss = 100.
Proof.
  intros Hne Hall. unfold overallScoreOf.
  destruct wss as [|ws wss]; [congruence|].
  change (0 <? length (ws :: wss))%nat with true. cbv iota.
  rewrite totalScore_sum.
  assert (Hsum : sumScores (ws :: wss) = 100 * Z.of_nat (length (ws :: wss))).
  { clear Hne. induction Hall as [|w l Hw _ IH]; [reflexivity|].
    unfold sumScores in *. simpl map. simpl fold_right. simpl length.
    rewrite IH, Hw. lia. }
  rewrite Hsum. set (n := Z.of_nat (length (ws :: wss))).
  assert (Hn : (0 < inject_Z n)%Q).
  { change 0%Q with (inject_Z 0). rewrite <- Zlt_Qlt. unfold n. simpl length. lia. }
  assert (Hq : (inject_Z (100 * n) / inject_Z n == 100)%Q).
  { rewrite inject_Z_mult. change (inject_Z 100) with 100%Q. field.
    intros E. rewrite E in Hn. discriminate. }
  unfold Num.div, Num.Math_round.
  assert (Hr : (Num.round53 (inject_Z (100 * n) / inject_Z n) == 100)%Q).
  { apply Qle_antisym.
    - apply Qle_trans with (Num.round53 100);
        [|rewrite round53_100; apply Qle_refl].
      apply NumFacts.round53_mono; rewrite Hq; [discriminate|apply Qle_refl].
    - apply Qle_trans with (Num.round53 100);
        [rewrite round53_100; apply Qle_refl|].
      apply NumFacts.round53_mono; [discriminate|rewrite Hq; apply Qle_refl]. }
  rewrite Hr. reflexivity.
Qed.

(* ================================================================== *)
(** * Normalization *)

Lemma replacePunctuation_noPunctuation s : noPunctuation (replacePunctuation s).
Proof.
  unfold noPunctuation, replacePunctuation. apply Forall_forall.
  intros c Hc. apply in_map_iff in Hc. destruct Hc as (d & <- & _).
  destruct (isPunctuation d) eqn:E; [reflexivity|exact E].
Qed.

Lemma replacePunctuation_id s : noPunctuation s -> replacePunctuation s = s.
Proof.
  unfold replacePunctuation. induction 1 as [|c s Hc _ IH]; [reflexivity|].
  simpl. now rewrite Hc, IH.
Qed.

Section Preserved.
Variable P : char16 -> Prop.
Hypothesis P_space : P space.

Lemma collapseFrom_Forall b s : Forall P s -> Forall P (collapseFrom b s).
Proof.
  intros H. revert b. induction H as [|c s Hc _ IH]; intros b; simpl; [constructor|].
  destruct (isWhiteSpace c); [destruct b|]; auto.
Qed.

Lemma trimStart_Forall s : Forall P s -> Forall P (trimStart s).
Proof.
  induction 1 as [|c s Hc Hs IH]; simpl; [constructor|].
  destruct (isWhiteSpace c); auto.
Qed.

Lemma trimEnd_Forall s : Forall P s -> Forall P (trimEnd s).
Proof.
  induction 1 as [|c s Hc Hs IH]; simpl; [constructor|].
  destruct (trimEnd s); [destruct (isWhiteSpace c)|]; auto.
Qed.
End Preserved.

Lemma tidy_noPunctuation s : noPunctuation (tidy s).
Proof.
  unfold tidy, trim, collapseWhiteSpace, noPunctuation.
  apply trimEnd_Forall, trimStart_Forall, collapseFrom_Forall;
    [reflexivity|apply replacePunctuation_noPunctuation].
Qed.

Lemma collapseFrom_spaced b s : spaced b (collapseFrom b s) = true.
Proof.
  revert b. induction s as [|c s IH]; intros b; [reflexivity|]. simpl.
  destruct (isWhiteSpace c) eqn:E.
  - destruct b; [apply IH|]. simpl. now rewrite IH.
  - simpl. rewrite E. apply IH.
Qed.

Lemma spaced_collapseFrom b s : spaced b s = true -> collapseFrom b s = s.
Proof.
  revert b. induction s as [|c s IH]; intros b; [reflexivity|]. simpl.
  destruct (isWhiteSpace c).
  - intros H. apply andb_true_iff in H. destruct H as [H Ht].
    apply andb_true_iff in H. destruct H as [Hb Hc].
    apply negb_true_iff in Hb. apply N.eqb_eq in Hc. subst b c.
    now rewrite (IH true Ht).
  - intros H. now rewrite (IH false H).
Qed.

Lemma spaced_weaken s : spaced true s = true -> spaced false s = true.
Proof.
  destruct s as [|c s]; [reflexivity|]. simpl.
  destruct (isWhiteSpace c); [discriminate|auto].
Qed.

Lemma trimStart_spaced b s : spaced b s = true -> spaced false (trimStart s) = true.
Proof.
  revert b. induction s as [|c s IH]; intros b; [reflexivity|]. simpl.
  destruct (isWhiteSpace c) eqn:E.
  - intros H. apply andb_true_iff in H. destruct H as [_ Ht]. now apply (IH true).
  - intros H. simpl. now rewrite E.
Qed.

Lemma trimEnd_spaced b s : spaced b s = true -> spaced b (trimEnd s) = true.
Proof.
  revert b. induction s as [|c s IH]; intros b; [reflexivity|]. simpl.
  destruct (trimEnd s) as [|d t'] eqn:Et.
  - destruct (isWhiteSpace c) eqn:E; [reflexivity|]. intros _. simpl. now rewrite E.
  - simpl. destruct (isWhiteSpace c).
    + intros H. apply andb_true_iff in H. destruct H as [H Ht].
      rewrite H. apply (IH true Ht).
    + intros H. apply (IH false H).
Qed.

Lemma trimEnd_idempotent s : trimEnd (trimEnd s) = trimEnd s.
Proof.
  induction s as [|c s IH]; [reflexivity|]. simpl.
  destruct (trimEnd s) as [|d t'] eqn:Et.
  - destruct (isWhiteSpace c) eqn:E; [reflexivity|]. simpl. now rewrite E.
  - simpl in *. now rewrite IH.
Qed.

(** The head of a string without leading white space survives [trimEnd]. *)
Lemma trimStart_trimEnd s : trimStart s = s -> trimStart (trimEnd s) = trimEnd s.
Proof.
  destruct s as [|c s]; [reflexivity|]. simpl.
  destruct (isWhiteSpace c) eqn:E.
  - intros H. exfalso.
    assert (Hlen : forall t, (length (trimStart t) <= length t)%nat).
    { induction t as [|x t IHt]; simpl; [lia|]. destruct (isWhiteSpace x); simpl; lia. }
    pose proof (Hlen s) as Hl. rewrite H in Hl. simpl in Hl. lia.
  - intros _. destruct (trimEnd s); simpl; now rewrite E.
Qed.

Lemma trimStart_idempotent s : trimStart (trimStart s) = trimStart s.
Proof.
  induction s as [|c s IH]; [reflexivity|]. simpl.
  destruct (isWhiteSpace c) eqn:E; [exact IH|]. simpl. now rewrite E.
Qed.

Lemma trim_idempotent s : trim (trim s) = trim s.
Proof.
  unfold trim.
  rewrite (trimStart_trimEnd (trimStart s) (trimStart_idempotent s)).
  apply trimEnd_idempotent.
Qed.

Lemma tidy_spaced s : spaced false (tidy s) = true.
Proof.
  unfold tidy, trim, collapseWhiteSpace.
  apply trimEnd_spaced, (trimStart_spaced false), collapseFrom_spaced.
Qed.

Lemma tidy_idempotent s : tidy (tidy s) = tidy s.
Proof.
  unfold tidy at 1.
  rewrite (replacePunctuation_id _ (tidy_noPunctuation s)).
  unfold collapseWhiteSpace. rewrite (spaced_collapseFrom _ _ (tidy_spaced s)).
  unfold tidy. apply trim_idempotent.
Qed.

Lemma normalizeText_tidy nfc lower x :
  normalizeText nfc lower x = tidy (lower (nfc x)).
Proof. reflexivity. Qed.
(* ================================================================== *)
(** * The alignment claims *)

(** C1. Every reference index is carried by exactly one entry of the
    alignment, a Matched or a Missing one, and every spoken index by
    exactly one entry, a Matched or an Extra one: the reference indices
    of the entries are 0 .. m-1, each once, and the spoken indices of the
    entries are a rearrangement of 0 .. n-1. *)
Theorem alignWords_partition (referenceWords spokenWords : list jsstring) :
  alignWords referenceWords spokenWords
  = map (render referenceWords spokenWords) (alignTrace referenceWords spokenWords)
  /\ refIndices (alignTrace referenceWords spokenWords)
     = seq 0 (length referenceWords)
  /\ Permutation (spokenIndices (alignTrace referenceWords spokenWords))
                 (seq 0 (length spokenWords)).
Proof.
  split; [apply alignWords_render|].
  split; [apply partition_ref|apply partition_spoken].
Qed.

(** C2. No Matched entry has a similarity below the threshold of 30. A
    candidate pair below the threshold is never a match; when its
    reference index has no other match it is a Missing entry, and when its
    spoken index has no other match it is an Extra entry. Every entry of
    the output has similarity 0 or at least 30. *)
Theorem threshold_invariant (referenceWords spokenWords : list jsstring) :
  let trace := alignTrace referenceWords spokenWords in
  (forall e, In e (alignWords referenceWords spokenWords) ->
             similarity e = 0 \/ MIN_SIMILARITY_THRESHOLD <= similarity e)
  /\ (forall i j v, In (Matched i j v) trace ->
        MIN_SIMILARITY_THRESHOLD <= v
        /\ v = calculateWordSimilarity (word referenceWords i) (word spokenWords j))
  /\ (forall i j,
        (i < length referenceWords)%nat -> (j < length spokenWords)%nat ->
        calculateWordSimilarity (word referenceWords i) (word spokenWords j)
          < MIN_SIMILARITY_THRESHOLD ->
        (forall v, ~ In (Matched i j v) trace)
        /\ ((forall j' v, In (Matched i j' v) trace -> j' = j) -> In (Missing i) trace)
        /\ ((forall i' v, In (Matched i' j v) trace -> i' = i) -> In (Extra j) trace)).
Proof.
  intros trace. subst trace.
  assert (Hm : forall i j v, In (Matched i j v) (alignTrace referenceWords spokenWords) ->
        MIN_SIMILARITY_THRESHOLD <= v
        /\ v = calculateWordSimilarity (word referenceWords i) (word spokenWords j)).
  { intros i j v H. apply in_trace_Matched in H. tauto. }
  split; [|split; [exact Hm|]].
  - intros e He. rewrite alignWords_render in He. apply in_map_iff in He.
    destruct He as (t & <- & Ht). destruct t as [i j v| |]; simpl; auto.
    right. now apply (Hm i j v).
  - intros i j Hi Hj Hlow.
    assert (Hno : forall v, ~ In (Matched i j v) (alignTrace referenceWords spokenWords)).
    { intros v H. apply Hm in H. lia. }
    assert (Hr : referenceWords <> []) by (destruct referenceWords; simpl in Hi; [lia|discriminate]).
    assert (Hs : spokenWords <> []) by (destruct spokenWords; simpl in Hj; [lia|discriminate]).
    split; [exact Hno|split].
    + intros Honly. pose proof (in_trace_ref _ _ i Hi Hs) as Ht.
      unfold refTag in Ht. destruct (findMatch _ i) as [p|]; [|exact Ht].
      exfalso. pose proof (Honly _ _ Ht) as E. rewrite E in Ht. exact (Hno _ Ht).
    + intros Honly. apply in_trace_Extra; [exact Hj|exact Hr|].
      intros Hin. destruct (matches_inv referenceWords spokenWords) as [_ Hsp _ _ _].
      rewrite Hsp, <- in_rev in Hin. apply in_map_iff in Hin.
      destruct Hin as (p & E & Hp). apply in_trace_matched_pair in Hp.
      rewrite E in Hp. pose proof (Honly _ _ Hp) as E'. rewrite E' in Hp.
      exact (Hno _ Hp).
Qed.

Lemma threshold_invariant_witness :
  calculateWordSimilarity Sample.beligge Sample.ide = 13
  /\ alignWords [Sample.beligge] [Sample.ide]
     = [mkEntry Sample.beligge missingMark 0; mkEntry extraMark Sample.ide 0]
  /\ In (Missing 0) (alignTrace [Sample.beligge] [Sample.ide])
  /\ In (Extra 0) (alignTrace [Sample.beligge] [Sample.ide]).
Proof.
  split; [vm_compute; reflexivity|]. split; [vm_compute; reflexivity|].
  destruct (threshold_invariant [Sample.beligge] [Sample.ide]) as (_ & _ & H).
  destruct (H 0%nat 0%nat) as (_ & Hm & He).
  - simpl. lia.
  - simpl. lia.
  - vm_compute. reflexivity.
  - split.
    + apply Hm. intros j' v Hin. vm_compute in Hin.
      destruct Hin as [E|[E|[]]]; discriminate E.
    + apply He. intros i' v Hin. vm_compute in Hin.
      destruct Hin as [E|[E|[]]]; discriminate E.
Defined.

(** C3. The alignment lists the Matched and Missing entries first, by
    increasing reference index, and then the Extra entries, by increasing
    spoken index. *)
Theorem alignment_order (referenceWords spokenWords : list jsstring) :
  exists refPart extraPart,
    alignTrace referenceWords spokenWords = refPart ++ extraPart
    /\ alignWords referenceWords spokenWords
       = map (render referenceWords spokenWords) refPart
         ++ map (render referenceWords spokenWords) extraPart
    /\ Forall (fun t => isRefTag t = true) refPart
    /\ Forall (fun t => isExtraTag t = true) extraPart
    /\ StronglySorted lt (refIndices refPart)
    /\ StronglySorted lt (spokenIndices extraPart).
Proof.
  assert (Hgen : forall refPart extraPart,
             alignTrace referenceWords spokenWords = refPart ++ extraPart ->
             alignWords referenceWords spokenWords
             = map (render referenceWords spokenWords) refPart
               ++ map (render referenceWords spokenWords) extraPart).
  { intros ? ? E. now rewrite alignWords_render, E, map_app. }
  destruct referenceWords as [|a r], spokenWords as [|b s].
  - exists [], []. repeat split; try constructor.
  - exists [], (map Extra (seq 0 (length (b :: s)))).
    split; [reflexivity|]. split; [now apply Hgen|].
    split; [constructor|]. split; [apply Forall_Extra|].
    split; [constructor|]. rewrite spokenIndices_Extra. apply StronglySorted_seq.
  - exists (map Missing (seq 0 (length (a :: r)))), [].
    split; [now rewrite app_nil_r|]. split; [apply Hgen; now rewrite app_nil_r|].
    split; [apply Forall_Missing|]. split; [constructor|].
    split; [|constructor]. rewrite refIndices_Missing. apply StronglySorted_seq.
  - eexists _, _. split; [apply alignTrace_general; discriminate|].
    split; [apply Hgen, alignTrace_general; discriminate|].
    split; [apply Forall_refTag|]. split; [apply Forall_Extra|].
    split.
    + rewrite refIndices_refTag. apply StronglySorted_seq.
    + rewrite spokenIndices_Extra. apply StronglySorted_filter, StronglySorted_seq.
Qed.

(** C7. The edge cases of [alignWords]: two empty sequences give the
    empty alignment; an empty reference gives one Extra entry of
    similarity 0 per spoken token, in spoken order; an empty spoken
    sequence gives one Missing entry of similarity 0 per reference token,
    in reference order. *)
Theorem alignWords_edge_cases :
  alignWords [] [] = []
  /\ (forall spokenWords,
        alignWords [] spokenWords = map (fun w => mkEntry extraMark w 0) spokenWords
        /\ alignTrace [] spokenWords = map Extra (seq 0 (length spokenWords)))
  /\ (forall referenceWords,
        alignWords referenceWords [] = map (fun w => mkEntry w missingMark 0) referenceWords
        /\ alignTrace referenceWords [] = map Missing (seq 0 (length referenceWords))).
Proof.
  split; [reflexivity|]. split.
  - intros [|b s]; split; reflexivity.
  - intros [|a r]; split; reflexivity.
Qed.

(* ================================================================== *)
(** * The scoring claims *)

(** C4, as the code has it. Scoring the reference tokens of scenario 1
    against its spoken tokens gives three Matched entries in reference
    order, with similarities 100, 100 and 67: the edit distance between
    the third reference token and the third spoken token is 2 and both
    have 6 code units. The overall score is round(267 / 3) = 89. *)
Theorem scenario1_scores :
  alignTrace Sample.reference1 Sample.spoken1
  = [Matched 0 1 100; Matched 1 0 100; Matched 2 2 67]
  /\ alignWords Sample.reference1 Sample.spoken1
     = [mkEntry Sample.main Sample.main 100;
        mkEntry Sample.aaj Sample.aaj 100;
        mkEntry Sample.bazaar Sample.bajari 67]
  /\ levenshtein_get Sample.bazaar Sample.bajari = 2%nat
  /\ length Sample.bazaar = 6%nat /\ length Sample.bajari = 6%nat
  /\ overallScoreOf (map toWordScore (alignWords Sample.reference1 Sample.spoken1))
     = 89.
Proof. repeat split; vm_compute; reflexivity. Qed.

(** C4, as the specification states it, does not hold: the third
    similarity is not 71 and the overall score is not 90. *)
Lemma scenario1_not_71_90 :
  ~ (alignWords Sample.reference1 Sample.spoken1
     = [mkEntry Sample.main Sample.main 100;
        mkEntry Sample.aaj Sample.aaj 100;
        mkEntry Sample.bazaar Sample.bajari 71]
     /\ overallScoreOf (map toWordScore (alignWords Sample.reference1 Sample.spoken1))
        = 90).
Proof. intros [_ H]. vm_compute in H. discriminate H. Qed.

(** C5, as the code has it. The similarity of two tokens is an integer
    between 0 and 100; it is 100 when both are empty; otherwise it is
    [Math.round] of [max(0, (1 - d / L) * 100)] evaluated in double
    precision, where [d] is the edit distance and [L] the larger length,
    and this is the exactly rounded value whenever [L] is below 40. The
    edit distance is the least cost of an edit script. *)
Theorem similarity_formula (a b : jsstring) :
  let d := Z.of_nat (levenshtein_get a b) in
  let L := Z.max (Z.of_nat (length a)) (Z.of_nat (length b)) in
  0 <= calculateWordSimilarity a b <= 100
  /\ (a = [] -> b = [] -> calculateWordSimilarity a b = 100)
  /\ (L <> 0 -> calculateWordSimilarity a b = similarityExpr d L)
  /\ (0 < L < 40 -> calculateWordSimilarity a b = exactSimilarity d L)
  /\ EditScript a b (levenshtein_get a b)
  /\ (forall n, EditScript a b n -> (levenshtein_get a b <= n)%nat).
Proof.
  intros d L. split; [apply calculateWordSimilarity_range|].
  split; [intros -> ->; reflexivity|].
  assert (Hexpr : L <> 0 -> calculateWordSimilarity a b = similarityExpr d L).
  { intros HL. rewrite calculateWordSimilarity_eq. cbv zeta. fold L.
    destruct (Z.eqb_spec L 0); [contradiction|reflexivity]. }
  split; [exact Hexpr|]. split.
  - intros HL. rewrite Hexpr by lia. unfold d, L.
    pose proof (levenshtein_le_max a b) as Hd.
    rewrite <- Nat2Z.inj_max. apply similarityExpr_exact; lia.
  - split; [apply levenshtein_script|apply levenshtein_minimal].
Qed.

Lemma similarity_formula_witness :
  calculateWordSimilarity Sample.bazaar Sample.bajari = exactSimilarity 2 6
  /\ calculateWordSimilarity [] [] = 100.
Proof.
  destruct (similarity_formula Sample.bazaar Sample.bajari) as (_ & _ & _ & H & _).
  destruct (similarity_formula [] []) as (_ & H0 & _).
  split.
  - apply H. simpl. lia.
  - apply H0; reflexivity.
Defined.

(** C5, as the specification states it, does not hold for long tokens:
    for a token of 40 code units and one of 3 at edit distance 37, the
    exact value of the expression is 7.5, which rounds to 8; in double
    precision it is below 7.5 and the code returns 7. *)
Lemma similarity_not_exact_at_40 :
  calculateWordSimilarity Sample.long40 Sample.short3
  <> exactSimilarity
       (Z.of_nat (levenshtein_get Sample.long40 Sample.short3))
       (Z.max (Z.of_nat (length Sample.long40)) (Z.of_nat (length Sample.short3)))
  /\ levenshtein_get Sample.long40 Sample.short3 = 37%nat
  /\ Z.max (Z.of_nat (length Sample.long40)) (Z.of_nat (length Sample.short3)) = 40
  /\ calculateWordSimilarity Sample.long40 Sample.short3 = 7
  /\ exactSimilarity 37 40 = 8
  /\ (binary64Product 37 40 < 15 # 2)%Q.
Proof.
  split; [vm_compute; discriminate|].
  repeat split; vm_compute; reflexivity.
Qed.

(** C6. The overall score of an empty list of entries is 0; that of a
    non-empty list of entries (similarities between 0 and 100, at most
    2^32 of them, as an array holds) is the mean of all similarities,
    Missing and Extra entries counting for 0, rounded to the nearest
    integer. When the reference and the transcription have the same,
    non-empty, token sequence the overall score is 100. *)
Theorem overall_score :
  overallScoreOf [] = 0
  /\ (forall wss,
        wss <> [] ->
        Forall (fun ws => 0 <= score ws <= 100) wss ->
        Z.of_nat (length wss) <= 2 ^ 32 ->
        overallScoreOf wss = roundedMean (sumScores wss) (length wss))
  /\ (forall nfc lower t r,
        let res := calculateLevenshteinScores nfc lower t r in
        overallScore res = overallScoreOf (wordScores res)
        /\ Forall (fun ws => 0 <= score ws <= 100) (wordScores res)
        /\ map score (wordScores res)
           = map (fun tag => match tag with Matched _ _ v => v | _ => 0 end)
                 (alignTrace (splitIntoWords nfc lower r) (splitIntoWords nfc lower t)))
  /\ (forall nfc lower t r,
        splitIntoWords nfc lower t = splitIntoWords nfc lower r ->
        splitIntoWords nfc lower r <> [] ->
        overallScore (calculateLevenshteinScores nfc lower t r) = 100).
Proof.
  split; [reflexivity|]. split; [|split].
  - intros wss Hne Hs Hlen. rewrite (overallScoreOf_exact wss Hs Hlen).
    destruct wss; [congruence|reflexivity].
  - intros nfc lower t r res. split; [reflexivity|].
    assert (Hmap : map score (wordScores res)
           = map (fun tag => match tag with Matched _ _ v => v | _ => 0 end)
                 (alignTrace (splitIntoWords nfc lower r) (splitIntoWords nfc lower t))).
    { unfold res, calculateLevenshteinScores. cbn [wordScores].
      rewrite alignWords_render, !map_map. apply map_ext.
      intros [i j v|i|j]; reflexivity. }
    split; [|exact Hmap].
    apply Forall_forall. intros ws Hws.
    assert (Hin : In (score ws) (map score (wordScores res))) by now apply in_map.
    rewrite Hmap in Hin. apply in_map_iff in Hin. destruct Hin as (tag & <- & Htag).
    destruct tag as [i j v| |]; try lia.
    apply in_trace_Matched in Htag. destruct Htag as (_ & _ & _ & _ & ->).
    apply calculateWordSimilarity_range.
  - intros nfc lower t r Hsame Hne.
    unfold calculateLevenshteinScores. cbn [overallScore]. rewrite Hsame.
    rewrite alignWords_identical, map_map.
    apply overallScoreOf_100.
    + destruct (splitIntoWords nfc lower r); [congruence|discriminate].
    + apply Forall_forall. intros ws Hws. apply in_map_iff in Hws.
      now destruct Hws as (w & <- & _).
Qed.

Lemma overall_score_witness :
  overallScoreOf (map toWordScore (alignWords Sample.reference1 Sample.spoken1))
  = roundedMean 267 3
  /\ overallScore
       (calculateLevenshteinScores composeJCaron lowerBasic
                                   Sample.sentence Sample.sentence) = 100.
Proof.
  destruct overall_score as (_ & Hmean & _ & Hsame). split.
  - apply (Hmean (map toWordScore (alignWords Sample.reference1 Sample.spoken1))).
    + vm_compute. discriminate.
    + vm_compute. repeat constructor; discriminate.
    + vm_compute. discriminate.
  - apply Hsame; [reflexivity|vm_compute; discriminate].
Defined.

(* ================================================================== *)
(** * The normalization claim *)

(** C8, as the code has it. Normalizing twice gives what normalizing once
    gives, and the tokens of the normalized text are those of the text,
    for every text whose normalized form the two Unicode built-ins leave
    unchanged. The three passes that follow them (punctuation, white
    space, trim) are idempotent on every string. *)
Theorem normalizeText_idempotent_when_stable
        (normalizeNFC toLowerCase : jsstring -> jsstring) (x : jsstring) :
  tidy (tidy x) = tidy x
  /\ (toLowerCase (normalizeNFC (normalizeText normalizeNFC toLowerCase x))
      = normalizeText normalizeNFC toLowerCase x ->
      normalizeText normalizeNFC toLowerCase (normalizeText normalizeNFC toLowerCase x)
      = normalizeText normalizeNFC toLowerCase x
      /\ splitIntoWords normalizeNFC toLowerCase
                        (normalizeText normalizeNFC toLowerCase x)
         = splitIntoWords normalizeNFC toLowerCase x).
Proof.
  split; [apply tidy_idempotent|]. intros Hstable.
  assert (H : normalizeText normalizeNFC toLowerCase
                (normalizeText normalizeNFC toLowerCase x)
              = normalizeText normalizeNFC toLowerCase x).
  { rewrite (normalizeText_tidy _ _ (normalizeText normalizeNFC toLowerCase x)).
    rewrite Hstable, normalizeText_tidy. apply tidy_idempotent. }
  split; [exact H|]. unfold splitIntoWords. now rewrite H.
Qed.

Lemma normalizeText_idempotent_witness :
  normalizeText composeJCaron lowerBasic
                (normalizeText composeJCaron lowerBasic Sample.sentence)
  = normalizeText composeJCaron lowerBasic Sample.sentence
  /\ splitIntoWords composeJCaron lowerBasic
                    (normalizeText composeJCaron lowerBasic Sample.sentence)
     = [Sample.aaj; Sample.main].
Proof.
  destruct (normalizeText_idempotent_when_stable composeJCaron lowerBasic Sample.sentence)
    as (_ & H).
  destruct H as [H1 H2]; [reflexivity|].
  split; [exact H1|]. rewrite H2. reflexivity.
Defined.

(** C8, as the specification states it, does not hold: J followed by the
    combining caron is in NFC, lower-casing turns it into j followed by
    the caron, and a second normalization composes these into U+01F0. *)
Lemma normalizeText_not_idempotent :
  normalizeText composeJCaron lowerBasic
                (normalizeText composeJCaron lowerBasic Sample.jCaron)
  <> normalizeText composeJCaron lowerBasic Sample.jCaron
  /\ normalizeText composeJCaron lowerBasic Sample.jCaron = [106; 780]%N
  /\ normalizeText composeJCaron lowerBasic
                   (normalizeText composeJCaron lowerBasic Sample.jCaron)
     = [496]%N
  /\ splitIntoWords composeJCaron lowerBasic
                    (normalizeText composeJCaron lowerBasic Sample.jCaron)
     <> splitIntoWords composeJCaron lowerBasic Sample.jCaron.
Proof.
  split; [vm_compute; discriminate|].
  split; [reflexivity|]. split; [reflexivity|].
  vm_compute. discriminate.
Qed.

(* ================================================================== *)
(** * Determinism and the frame of the result *)



(** C10. The [transcription] field of the result is the transcription
    argument itself, whatever the two texts; the words of the entries are
    tokens of the normalized texts, or one of the two marks. *)
Theorem transcription_unchanged
        (normalizeNFC toLowerCase : jsstring -> jsstring)
        (transcriptionText referenceText : jsstring) :
  let res := calculateLevenshteinScores normalizeNFC toLowerCase
                                        transcriptionText referenceText in
  transcription res = transcriptionText
  /\ (forall ws, In ws (wordScores res) ->
        (wsWord ws = extraMark
         \/ In (wsWord ws) (splitIntoWords normalizeNFC toLowerCase referenceText))
        /\ (transcribedWord ws = missingMark
            \/ In (transcribedWord ws)
                  (splitIntoWords normalizeNFC toLowerCase transcriptionText))).
Proof.
  intros res. split; [reflexivity|].
  intros ws Hws. unfold res, calculateLevenshteinScores in Hws. cbn [wordScores] in Hws.
  rewrite alignWords_render, map_map in Hws. apply in_map_iff in Hws.
  destruct Hws as (tag & <- & Htag). apply in_trace_bounds in Htag.
  destruct tag as [i j v|i|j]; cbn [render toWordScore refWord spokenWord wsWord transcribedWord].
  - destruct Htag as [Hi Hj]. split; right; now apply word_In.
  - split; [right; now apply word_In|now left].
  - split; [now left|right; now apply word_In].
Qed.

Lemma transcription_unchanged_witness :
  transcription (calculateLevenshteinScores composeJCaron lowerBasic
                                            Sample.greeting Sample.greeting)
  = Sample.greeting
  /\ map wsWord (wordScores (calculateLevenshteinScores composeJCaron lowerBasic
                                                        Sample.greeting Sample.greeting))
     = [js "hello"; js "world"]%string.
Proof.
  pose proof (transcription_unchanged composeJCaron lowerBasic
                                      Sample.greeting Sample.greeting) as [H _].
  split; [exact H|reflexivity].
Defined.

(* ================================================================== *)
(** * More on the similarity of two tokens *)

Lemma jsEqb_eq a b : jsEqb a b = true <-> a = b.
Proof.
  revert b. induction a as [|c a IH]; intros [|d b]; simpl; split;
    try congruence; try discriminate; auto.
  - intros H. apply andb_true_iff in H. destruct H as [Hc Ha].
    apply N.eqb_eq in Hc. apply IH in Ha. now subst.
  - intros E. inversion E; subst. rewrite N.eqb_refl. now apply IH.
Qed.

Lemma jsEqb_neq a b : jsEqb a b = false <-> a <> b.
Proof.
  rewrite <- jsEqb_eq. destruct (jsEqb a b); split; intros; congruence.
Qed.

Lemma min3_swap a b c : min3 a b c = min3 b a c.
Proof. unfold min3. lia. Qed.

Lemma levenshtein_sym s t : levenshtein_get s t = levenshtein_get t s.
Proof.
  revert t. induction s as [|a s IHs]; intros t.
  - now rewrite levenshtein_nil_l, levenshtein_nil_r.
  - induction t as [|b t IHt].
    + now rewrite levenshtein_nil_l, levenshtein_nil_r.
    + rewrite !levenshtein_cons, min3_swap, IHt, (IHs (b :: t)), (IHs t).
      now rewrite (N.eqb_sym a b).
Qed.

Lemma levenshtein_zero s t : levenshtein_get s t = 0%nat -> s = t.
Proof.
  revert t. induction s as [|a s IH]; intros t.
  - rewrite levenshtein_nil_l. now destruct t.
  - destruct t as [|b t].
    + rewrite levenshtein_nil_r. discriminate.
    + rewrite levenshtein_cons. unfold min3. intros H.
      destruct (N.eqb_spec a b) as [->|NE]; [|lia].
      f_equal. apply IH. lia.
Qed.

(** X1. The similarity does not depend on which of the two tokens is the
    reference. *)
Theorem calculateWordSimilarity_sym (word1 word2 : jsstring) :
  calculateWordSimilarity word1 word2 = calculateWordSimilarity word2 word1.
Proof.
  unfold calculateWordSimilarity.
  now rewrite levenshtein_sym, Z.max_comm.
Qed.

Section Perfect.
Import Num NumFacts.
Local Open Scope Q_scope.

(** One edit among at most 199 code units already costs a point. *)
Lemma similarityExpr_below_100 (d L : Z) :
  (1 <= d <= L)%Z -> (L <= 199)%Z -> (similarityExpr d L <= 99)%Z.
Proof.
  intros Hd HL.
  assert (HL' : 0 < inject_Z L) by (change 0 with (inject_Z 0); rewrite <- Zlt_Qlt; lia).
  destruct (ratio_bounds d L) as [Hq0 Hq1]; [lia|lia|].
  assert (Hlow : 1 # 199 <= inject_Z d / inject_Z L).
  { apply Qle_shift_div_l; [exact HL'|].
    assert (H1 : 1 <= inject_Z d) by (change 1 with (inject_Z 1); rewrite <- Zle_Qle; lia).
    assert (H2 : inject_Z L <= 199) by (change 199 with (inject_Z 199); rewrite <- Zle_Qle; lia).
    lra. }
  unfold similarityExpr, mul, sub, div.
  set (q := round53 (inject_Z d / inject_Z L)).
  assert (Q1 : q <= 1) by (rewrite <- round53_1; now apply round53_mono).
  assert (Q0 : round53 (1 # 199) <= q) by (apply round53_mono; [discriminate|exact Hlow]).
  set (s := round53 (1 - q)).
  assert (S0 : 0 <= s) by (apply round53_nonneg; lra).
  assert (S1 : s <= round53 (1 - round53 (1 # 199))) by (apply round53_mono; lra).
  set (p := round53 (s * 100)).
  assert (P1 : p <= round53 (round53 (1 - round53 (1 # 199)) * 100))
    by (apply round53_mono; lra).
  assert (Hc : round53 (round53 (1 - round53 (1 # 199)) * 100) < 995 # 10)
    by (vm_compute; reflexivity).
  assert (Hm : Math_max 0 p < 995 # 10).
  { unfold Math_max. destruct (Qle_bool 0 p); [lra|reflexivity]. }
  unfold Math_round.
  assert (Hf : (Qfloor (Math_max 0 p + (1 # 2)) < 100)%Z).
  { rewrite Zlt_Qlt. eapply Qle_lt_trans; [apply Qfloor_le|].
    change (inject_Z 100) with 100. lra. }
  lia.
Qed.

End Perfect.

Lemma similarity_100_equal word1 word2 :
  (length word1 < 200)%nat -> (length word2 < 200)%nat ->
  calculateWordSimilarity word1 word2 = 100 -> word1 = word2.
Proof.
  intros H1 H2. rewrite calculateWordSimilarity_eq. cbv zeta.
  destruct (Z.eqb_spec (Z.max (Z.of_nat (length word1)) (Z.of_nat (length word2))) 0)
    as [E|NE].
  - intros _. destruct word1, word2; simpl in E; try lia. reflexivity.
  - intros Hs. apply levenshtein_zero.
    destruct (levenshtein_get word1 word2) as [|d] eqn:Ed; [reflexivity|exfalso].
    pose proof (levenshtein_le_max word1 word2) as Hmax.
    pose proof (similarityExpr_below_100
                  (Z.of_nat (S d))
                  (Z.max (Z.of_nat (length word1)) (Z.of_nat (length word2)))) as Hb.
    rewrite Hs in Hb. lia.
Qed.

(** X2. A token always has similarity 100 with itself and, for tokens of
    fewer than 200 code units, only with itself. *)
Theorem perfect_similarity_iff_equal (word1 word2 : jsstring) :
  calculateWordSimilarity word1 word1 = 100
  /\ ((length word1 < 200)%nat -> (length word2 < 200)%nat ->
      (calculateWordSimilarity word1 word2 = 100 <-> word1 = word2)).
Proof.
  split; [apply calculateWordSimilarity_same|].
  intros H1 H2. split; [now apply similarity_100_equal|].
  intros ->. apply calculateWordSimilarity_same.
Qed.

Lemma perfect_similarity_witness :
  calculateWordSimilarity Sample.bazaar Sample.bajari = 100
  <-> Sample.bazaar = Sample.bajari.
Proof.
  destruct (perfect_similarity_iff_equal Sample.bazaar Sample.bajari) as [_ H].
  apply H; simpl; lia.
Defined.

Section Forgiven.
Import Num NumFacts.
Local Open Scope Q_scope.

(** Edits that amount to at most one code unit in 200 are rounded away. *)
Lemma similarityExpr_forgiven (d L : Z) :
  (0 <= d)%Z -> (0 < L)%Z -> (200 * d <= L)%Z -> similarityExpr d L = 100%Z.
Proof.
  intros Hd HL Hr.
  assert (Hle : (similarityExpr d L <= 100)%Z) by (apply similarityExpr_range; lia).
  enough (100 <= similarityExpr d L)%Z by lia.
  assert (HL' : 0 < inject_Z L) by (change 0 with (inject_Z 0); rewrite <- Zlt_Qlt; lia).
  destruct (ratio_bounds d L) as [Hq0 Hq1]; [lia|lia|].
  assert (Hup : inject_Z d / inject_Z L <= 1 # 200).
  { apply Qle_shift_div_r; [exact HL'|].
    assert (H1 : 200 * inject_Z d <= inject_Z L).
    { change 200 with (inject_Z 200). rewrite <- inject_Z_mult, <- Zle_Qle. lia. }
    lra. }
  unfold similarityExpr, mul, sub, div.
  set (q := round53 (inject_Z d / inject_Z L)).
  assert (Q0 : 0 <= q) by now apply round53_nonneg.
  assert (Q1 : q <= round53 (1 # 200)) by now apply round53_mono.
  assert (Hc : round53 (1 # 200) <= 1 # 100) by (vm_compute; discriminate).
  set (s := round53 (1 - q)).
  assert (S1 : round53 (1 - round53 (1 # 200)) <= s) by (apply round53_mono; lra).
  assert (S0 : 0 <= round53 (1 - round53 (1 # 200))) by (apply round53_nonneg; lra).
  set (p := round53 (s * 100)).
  assert (P1 : round53 (round53 (1 - round53 (1 # 200)) * 100) <= p)
    by (apply round53_mono; lra).
  assert (HK : 995 # 10 <= round53 (round53 (1 - round53 (1 # 200)) * 100))
    by (vm_compute; discriminate).
  assert (Hm : 995 # 10 <= Math_max 0 p).
  { unfold Math_max. destruct (Qle_bool 0 p) eqn:E; [lra|].
    exfalso. assert (0 <= p) by lra. apply Qle_bool_iff in H. congruence. }
  unfold Math_round. change 100%Z with (Qfloor 100). apply Qfloor_resp_le. lra.
Qed.

End Forgiven.

Lemma levenshtein_subst_head a b s :
  a <> b -> levenshtein_get (a :: s) (b :: s) = 1%nat.
Proof.
  intros NE.
  destruct (levenshtein_get (a :: s) (b :: s)) as [|[|n]] eqn:E; [|reflexivity|].
  - apply levenshtein_zero in E. congruence.
  - exfalso. rewrite levenshtein_cons, levenshtein_refl in E.
    destruct (N.eqb_spec a b); [congruence|]. unfold min3 in E. lia.
Qed.

(** X3. Long tokens forgive edits: when the edit distance is at most
    one two-hundredth of the longer length, the similarity is 100 although
    the tokens may differ, as for two tokens of 200 code units with one
    substitution. *)
Theorem long_tokens_forgive_edits (word1 word2 : jsstring) :
  200 * Z.of_nat (levenshtein_get word1 word2)
  <= Z.max (Z.of_nat (length word1)) (Z.of_nat (length word2)) ->
  calculateWordSimilarity word1 word2 = 100.
Proof.
  intros H. rewrite calculateWordSimilarity_eq. cbv zeta.
  destruct (Z.eqb_spec (Z.max (Z.of_nat (length word1)) (Z.of_nat (length word2))) 0)
    as [E|NE]; [reflexivity|].
  apply similarityExpr_forgiven; lia.
Qed.

Lemma long_tokens_forgive_edits_witness :
  Reading.longX <> Reading.longY
  /\ calculateWordSimilarity Reading.longX Reading.longY = 100.
Proof.
  split; [discriminate|].
  apply (long_tokens_forgive_edits Reading.longX Reading.longY).
  unfold Reading.longX, Reading.longY.
  rewrite levenshtein_subst_head by discriminate.
  rewrite !length_cons, !repeat_length. vm_compute. discriminate.
Defined.

Lemma EditScript_lengths s t n :
  EditScript s t n ->
  (length s <= length t + n)%nat /\ (length t <= length s + n)%nat.
Proof. induction 1; simpl; lia. Qed.

Lemma levenshtein_length_gap s t :
  (length s <= length t + levenshtein_get s t)%nat
  /\ (length t <= length s + levenshtein_get s t)%nat.
Proof. apply EditScript_lengths, levenshtein_script. Qed.

Section Ratio.
Import Num NumFacts.
Local Open Scope Q_scope.

(** Edits that amount to 71 code units in 100 or more leave less than 30. *)
Lemma similarityExpr_far (d L : Z) :
  (0 <= d <= L)%Z -> (0 < L)%Z -> (71 * L <= 100 * d)%Z ->
  (similarityExpr d L < 30)%Z.
Proof.
  intros Hd HL Hr.
  assert (HL' : 0 < inject_Z L) by (change 0 with (inject_Z 0); rewrite <- Zlt_Qlt; lia).
  destruct (ratio_bounds d L) as [Hq0 Hq1]; [lia|lia|].
  assert (Hlow : 71 # 100 <= inject_Z d / inject_Z L).
  { apply Qle_shift_div_l; [exact HL'|].
    assert (H1 : 71 * inject_Z L <= 100 * inject_Z d).
    { change 71 with (inject_Z 71). change 100 with (inject_Z 100).
      rewrite <- !inject_Z_mult, <- Zle_Qle. lia. }
    lra. }
  unfold similarityExpr, mul, sub, div.
  set (q := round53 (inject_Z d / inject_Z L)).
  assert (Q1 : q <= 1) by (rewrite <- round53_1; now apply round53_mono).
  assert (Q0 : round53 (71 # 100) <= q) by (apply round53_mono; [discriminate|exact Hlow]).
  set (s := round53 (1 - q)).
  assert (S0 : 0 <= s) by (apply round53_nonneg; lra).
  assert (S1 : s <= round53 (1 - round53 (71 # 100))) by (apply round53_mono; lra).
  set (p := round53 (s * 100)).
  assert (P1 : p <= round53 (round53 (1 - round53 (71 # 100)) * 100))
    by (apply round53_mono; lra).
  assert (Hc : round53 (round53 (1 - round53 (71 # 100)) * 100) < 295 # 10)
    by (vm_compute; reflexivity).
  assert (Hm : Math_max 0 p < 295 # 10).
  { unfold Math_max. destruct (Qle_bool 0 p); [lra|reflexivity]. }
  unfold Math_round.
  assert (Hf : (Qfloor (Math_max 0 p + (1 # 2)) < 30)%Z).
  { rewrite Zlt_Qlt. eapply Qle_lt_trans; [apply Qfloor_le|].
    change (inject_Z 30) with 30. lra. }
  exact Hf.
Qed.

End Ratio.

Lemma similarity_of_uneven_lengths word1 word2 :
  let l1 := Z.of_nat (length word1) in
  let l2 := Z.of_nat (length word2) in
  0 < Z.max l1 l2 ->
  100 * Z.min l1 l2 <= 29 * Z.max l1 l2 ->
  calculateWordSimilarity word1 word2 < MIN_SIMILARITY_THRESHOLD.
Proof.
  cbv zeta. intros Hpos Hratio. rewrite calculateWordSimilarity_eq. cbv zeta.
  destruct (Z.eqb_spec (Z.max (Z.of_nat (length word1)) (Z.of_nat (length word2))) 0)
    as [E|NE]; [lia|].
  pose proof (levenshtein_length_gap word1 word2) as [G1 G2].
  pose proof (levenshtein_le_max word1 word2) as Hmax.
  unfold MIN_SIMILARITY_THRESHOLD. apply similarityExpr_far; lia.
Qed.

(** X4. Tokens of very different lengths are never matched: when the
    shorter of a reference token and a spoken token has at most 29
    hundredths of the code units of the longer, their similarity is
    below the threshold and no entry of the alignment pairs them. *)
Theorem length_ratio_filter (referenceWords spokenWords : list jsstring) (i j : nat) :
  let l1 := Z.of_nat (length (word referenceWords i)) in
  let l2 := Z.of_nat (length (word spokenWords j)) in
  0 < Z.max l1 l2 ->
  100 * Z.min l1 l2 <= 29 * Z.max l1 l2 ->
  calculateWordSimilarity (word referenceWords i) (word spokenWords j)
  < MIN_SIMILARITY_THRESHOLD
  /\ forall v, ~ In (Matched i j v) (alignTrace referenceWords spokenWords).
Proof.
  intros l1 l2 Hpos Hratio.
  pose proof (similarity_of_uneven_lengths _ _ Hpos Hratio) as Hlt.
  split; [exact Hlt|]. intros v Hin.
  apply in_trace_Matched in Hin. destruct Hin as (_ & _ & _ & Hge & Ev). lia.
Qed.

Lemma length_ratio_filter_witness :
  calculateWordSimilarity Sample.beligge Sample.aaj < MIN_SIMILARITY_THRESHOLD
  /\ forall v, ~ In (Matched 0 0 v) (alignTrace [Sample.beligge] [Sample.aaj]).
Proof.
  apply (length_ratio_filter [Sample.beligge] [Sample.aaj] 0 0);
    vm_compute; [reflexivity|discriminate].
Defined.

(* ================================================================== *)
(** * The tokens of a text *)

Lemma splitFrom_nonempty b s : splitFrom b s <> [].
Proof.
  revert b. induction s as [|c s IH]; intros b; simpl; [discriminate|].
  destruct (isWhiteSpace c); [destruct b; [apply IH|discriminate]|].
  destruct (splitFrom false s); discriminate.
Qed.

Lemma splitFrom_pieces b s :
  Forall (fun p => Forall (fun c => isWhiteSpace c = false /\ In c s) p) (splitFrom b s).
Proof.
  revert b. induction s as [|c s IH]; intros b; simpl; [repeat constructor|].
  assert (Hw : forall l,
             Forall (fun p => Forall (fun x => isWhiteSpace x = false /\ In x s) p) l ->
             Forall (fun p => Forall (fun x => isWhiteSpace x = false /\ (c = x \/ In x s)) p) l).
  { intros l Hl. eapply Forall_impl; [|exact Hl]. intros p Hp.
    eapply Forall_impl; [|exact Hp]. intros x [Hx Hin]. auto. }
  destruct (isWhiteSpace c) eqn:E.
  - destruct b; [apply Hw, IH|]. constructor; [constructor|apply Hw, IH].
  - specialize (IH false). apply Hw in IH.
    destruct (splitFrom false s) as [|p ps]; [repeat constructor; auto|].
    inversion IH; subst. constructor; [|assumption].
    constructor; [auto|assumption].
Qed.

Lemma in_nonEmptyWords w s :
  In w (nonEmptyWords s) ->
  w <> [] /\ Forall (fun c => isWhiteSpace c = false /\ In c s) w.
Proof.
  unfold nonEmptyWords. intros H. apply filter_In in H. destruct H as [Hin Hlen].
  split.
  - intros ->. discriminate.
  - pose proof (splitFrom_pieces false s) as Hp. rewrite Forall_forall in Hp.
    now apply Hp.
Qed.

Lemma splitIntoWords_nonEmptyWords nfc lower text :
  splitIntoWords nfc lower text = nonEmptyWords (normalizeText nfc lower text).
Proof. reflexivity. Qed.

(** X5. Whatever the text, every token is non-empty and contains neither
    white space nor one of the punctuation marks. *)
Theorem tokens_are_clean (normalizeNFC toLowerCase : jsstring -> jsstring)
        (text w : jsstring) :
  In w (splitIntoWords normalizeNFC toLowerCase text) ->
  w <> []
  /\ Forall (fun c => isWhiteSpace c = false /\ isPunctuation c = false) w.
Proof.
  rewrite splitIntoWords_nonEmptyWords. intros H.
  apply in_nonEmptyWords in H. destruct H as [Hne Hw]. split; [exact Hne|].
  pose proof (tidy_noPunctuation (toLowerCase (normalizeNFC text))) as Hp.
  rewrite <- normalizeText_tidy in Hp. unfold noPunctuation in Hp.
  rewrite Forall_forall in Hp. eapply Forall_impl; [|exact Hw].
  intros c [Hc Hin]. auto.
Qed.

Lemma tokens_are_clean_witness :
  Sample.aaj <> []
  /\ Forall (fun c => isWhiteSpace c = false /\ isPunctuation c = false) Sample.aaj.
Proof.
  apply (tokens_are_clean composeJCaron lowerBasic Sample.sentence).
  vm_compute. auto.
Defined.

(** ** Joining the tokens again *)

Lemma trimEnd_cons_fixed c t : trimEnd (c :: t) = c :: t -> trimEnd t = t.
Proof.
  simpl. destruct (trimEnd t) as [|d t'] eqn:E.
  - destruct (isWhiteSpace c); [discriminate|]. intros H. now inversion H.
  - intros H. now inversion H.
Qed.

Lemma trimEnd_fixed_last c : trimEnd [c] = [c] -> isWhiteSpace c = false.
Proof. simpl. destruct (isWhiteSpace c); [discriminate|reflexivity]. Qed.

(** A string whose white space is single U+0020 between other code units
    is its pieces joined by U+0020; but for the first, no piece is
    empty. *)
Lemma unsplit b s :
  spaced b s = true -> trimEnd s = s ->
  exists p ps,
    splitFrom b s = p :: ps
    /\ s = p ++ concat (map (cons space) ps)
    /\ Forall (fun q => q <> []) ps
    /\ (p = [] -> s = [] \/ exists t, s = space :: t).
Proof.
  revert b. induction s as [|c s IH]; intros b Hsp Hte.
  - exists [], []. repeat split; auto.
  - pose proof (trimEnd_cons_fixed c s Hte) as Hte'.
    simpl in Hsp. simpl splitFrom. destruct (isWhiteSpace c) eqn:E.
    + apply andb_true_iff in Hsp. destruct Hsp as [Hsp Hs].
      apply andb_true_iff in Hsp. destruct Hsp as [Hb Hc].
      apply negb_true_iff in Hb. apply N.eqb_eq in Hc. subst b c.
      destruct (IH true Hs Hte') as (p & ps & Esplit & Es & Hps & Hp).
      rewrite Esplit. exists [], (p :: ps). split; [reflexivity|].
      split; [simpl; now rewrite <- Es|]. split.
      * constructor; [|exact Hps]. intros ->.
        destruct (Hp eq_refl) as [->|(t & ->)].
        -- apply trimEnd_fixed_last in Hte. congruence.
        -- simpl in Hs. change (isWhiteSpace space) with true in Hs. discriminate.
      * intros _. right. now exists s.
    + destruct (IH false Hsp Hte') as (p & ps & Esplit & Es & Hps & Hp).
      rewrite Esplit. exists (c :: p), ps. split; [reflexivity|].
      split; [simpl; now rewrite <- Es|]. split; [exact Hps|discriminate].
Qed.

Lemma filter_nonempty_id (l : list jsstring) :
  Forall (fun q => q <> []) l -> filter (fun w => (0 <? length w)%nat) l = l.
Proof.
  induction 1 as [|q l Hq _ IH]; [reflexivity|]. simpl.
  destruct q; [congruence|]. simpl. now rewrite IH.
Qed.

Lemma trim_fixed s : trimStart (trim s) = trim s /\ trimEnd (trim s) = trim s.
Proof.
  unfold trim. split.
  - apply trimStart_trimEnd, trimStart_idempotent.
  - apply trimEnd_idempotent.
Qed.

Lemma joinSpace_nonEmptyWords s :
  spaced false s = true -> trimStart s = s -> trimEnd s = s ->
  joinSpace (nonEmptyWords s) = s.
Proof.
  intros Hsp Hts Hte. unfold nonEmptyWords, splitWhiteSpace.
  destruct (unsplit false s Hsp Hte) as (p & ps & Esplit & Es & Hps & Hp).
  rewrite Esplit. destruct p as [|c p].
  - destruct (Hp eq_refl) as [->|(t & ->)].
    + destruct ps as [|q ps]; [reflexivity|]. simpl in Es. discriminate.
    + simpl in Hts. change (isWhiteSpace space) with true in Hts.
      exfalso.
      assert (Hlen : forall u, (length (trimStart u) <= length u)%nat).
      { induction u as [|x u IHu]; simpl; [lia|]. destruct (isWhiteSpace x); simpl; lia. }
      pose proof (Hlen t) as Hl. rewrite Hts in Hl. simpl in Hl. lia.
  - simpl filter. rewrite filter_nonempty_id by exact Hps.
    simpl. now rewrite Es.
Qed.

(** X6. The normalized text is its tokens joined by single spaces: the
    tokens lose nothing of it. *)
Theorem normalizeText_is_joined_tokens
        (normalizeNFC toLowerCase : jsstring -> jsstring) (text : jsstring) :
  joinSpace (splitIntoWords normalizeNFC toLowerCase text)
  = normalizeText normalizeNFC toLowerCase text.
Proof.
  rewrite splitIntoWords_nonEmptyWords, normalizeText_tidy.
  destruct (trim_fixed (collapseWhiteSpace
                          (replacePunctuation (toLowerCase (normalizeNFC text)))))
    as [Hs He].
  apply joinSpace_nonEmptyWords; [apply tidy_spaced|exact Hs|exact He].
Qed.

(** ** Texts without tokens *)

Lemma trimStart_all_white s :
  Forall (fun c => isWhiteSpace c = true) s -> trimStart s = [].
Proof. induction 1 as [|c s Hc _ IH]; simpl; [|rewrite Hc]; auto. Qed.

Lemma tidy_blank s :
  Forall (fun c => isWhiteSpace c = true \/ isPunctuation c = true) s -> tidy s = [].
Proof.
  intros H. unfold tidy, trim, collapseWhiteSpace.
  rewrite trimStart_all_white; [reflexivity|].
  apply collapseFrom_Forall; [reflexivity|].
  unfold replacePunctuation. apply Forall_forall. intros c Hc.
  apply in_map_iff in Hc. destruct Hc as (d & <- & Hd).
  rewrite Forall_forall in H. destruct (isPunctuation d) eqn:E; [reflexivity|].
  destruct (H d Hd); congruence.
Qed.

Lemma overallScoreOf_zero wss :
  Forall (fun ws => score ws = 0) wss -> overallScoreOf wss = 0.
Proof.
  intros Hall. unfold overallScoreOf.
  destruct wss as [|ws wss]; [reflexivity|].
  change (0 <? length (ws :: wss))%nat with true. cbv iota.
  rewrite totalScore_sum.
  assert (Hsum : sumScores (ws :: wss) = 0).
  { induction Hall as [|w l Hw _ IH]; [reflexivity|].
    unfold sumScores in *. simpl. rewrite Hw, IH. reflexivity. }
  rewrite Hsum. unfold Num.div.
  rewrite NumFacts.round53_zero; [reflexivity|].
  unfold Qdiv. change (inject_Z 0) with 0%Q. apply Qmult_0_l.
Qed.

Lemma alignWords_nil_r r :
  alignWords r [] = map (fun w => mkEntry w missingMark 0) r.
Proof. destruct r; reflexivity. Qed.

(** X7. When the transcription has no token, which is the case of a text
    of white space and punctuation only, every reference token is
    reported missing, in order, and the overall score is 0. *)
Theorem silent_transcription (normalizeNFC toLowerCase : jsstring -> jsstring)
        (transcriptionText referenceText : jsstring) :
  Forall (fun c => isWhiteSpace c = true \/ isPunctuation c = true)
         (toLowerCase (normalizeNFC transcriptionText)) ->
  let res := calculateLevenshteinScores normalizeNFC toLowerCase
                                        transcriptionText referenceText in
  splitIntoWords normalizeNFC toLowerCase transcriptionText = []
  /\ wordScores res
     = map (fun w => mkWordScore w missingMark 0)
           (splitIntoWords normalizeNFC toLowerCase referenceText)
  /\ overallScore res = 0.
Proof.
  intros Hblank res.
  assert (Hno : splitIntoWords normalizeNFC toLowerCase transcriptionText = []).
  { rewrite splitIntoWords_nonEmptyWords, normalizeText_tidy, tidy_blank by exact Hblank.
    reflexivity. }
  assert (Hws : wordScores res
                = map (fun w => mkWordScore w missingMark 0)
                      (splitIntoWords normalizeNFC toLowerCase referenceText)).
  { unfold res, calculateLevenshteinScores. cbn [wordScores]. rewrite Hno.
    now rewrite alignWords_nil_r, map_map. }
  split; [exact Hno|]. split; [exact Hws|].
  change (overallScore res) with (overallScoreOf (wordScores res)).
  apply overallScoreOf_zero. rewrite Hws. apply Forall_forall.
  intros ws Hin. apply in_map_iff in Hin. now destruct Hin as (w & <- & _).
Qed.

Lemma silent_transcription_witness :
  wordScores (calculateLevenshteinScores composeJCaron lowerBasic
                                         (js " ... ?! "%string) Sample.sentence)
  = [mkWordScore Sample.aaj missingMark 0; mkWordScore Sample.main missingMark 0].
Proof.
  assert (Hb : Forall (fun c => isWhiteSpace c = true \/ isPunctuation c = true)
                      (lowerBasic (composeJCaron (js " ... ?! "%string)))).
  { repeat (apply Forall_cons; [vm_compute; auto|]). apply Forall_nil. }
  destruct (silent_transcription composeJCaron lowerBasic
                                 (js " ... ?! "%string) Sample.sentence Hb)
    as (_ & H & _).
  exact H.
Defined.

(* ================================================================== *)
(** * What the greedy sweep guarantees *)

Lemma greedyStep_matches st p :
  matches (greedyStep st p) = matches st
  \/ (matches (greedyStep st p) = matches st ++ [p]
      /\ MIN_SIMILARITY_THRESHOLD <= pairSimilarity p).
Proof.
  unfold greedyStep.
  destruct (negb (has (matchedRef st) (refIdx p))
            && negb (has (matchedSpoken st) (spokenIdx p))); [|now left].
  destruct (Z.leb_spec MIN_SIMILARITY_THRESHOLD (pairSimilarity p)); [|now left].
  right. now split.
Qed.

Lemma fold_matches_incl l st :
  incl (matches st) (matches (fold_left greedyStep l st)).
Proof.
  revert st. induction l as [|p l IH]; intros st; simpl; [apply incl_refl|].
  eapply incl_tran; [|apply IH].
  destruct (greedyStep_matches st p) as [->|[-> _]];
    [apply incl_refl|apply incl_appl, incl_refl].
Qed.

(** After the sweep of a descending list, every candidate that reaches
    the threshold shares an index with a recorded match that is at least
    as similar. *)
Lemma greedy_dominates l :
  descending l ->
  forall st,
    Inv (fun _ => True) st ->
    (forall q p, In q (matches st) -> In p l -> pairSimilarity p <= pairSimilarity q) ->
    forall p, In p l -> MIN_SIMILARITY_THRESHOLD <= pairSimilarity p ->
      exists q, In q (matches (fold_left greedyStep l st))
                /\ pairSimilarity p <= pairSimilarity q
                /\ (refIdx q = refIdx p \/ spokenIdx q = spokenIdx p).
Proof.
  unfold descending. induction 1 as [|p0 l Hs IH Hp0]; intros st HI Hdom p Hp Hge;
    [contradiction|].
  rewrite Forall_forall in Hp0. simpl fold_left.
  assert (HI1 : Inv (fun _ => True) (greedyStep st p0)) by now apply greedyStep_inv.
  assert (Hdom1 : forall q p, In q (matches (greedyStep st p0)) -> In p l ->
                              pairSimilarity p <= pairSimilarity q).
  { intros q p' Hq Hp'.
    destruct (greedyStep_matches st p0) as [E|[E _]]; rewrite E in Hq.
    - apply Hdom; [exact Hq|now right].
    - apply in_app_or in Hq. destruct Hq as [Hq|[<-|[]]].
      + apply Hdom; [exact Hq|now right].
      + now apply Hp0. }
  destruct Hp as [<-|Hp]; [|now apply (IH _ HI1 Hdom1)].
  assert (Hkeep : forall q, In q (matches (greedyStep st p0)) ->
                            In q (matches (fold_left greedyStep l (greedyStep st p0))))
    by (intros q; apply fold_matches_incl).
  destruct HI as [Hr Hsp _ _ _].
  unfold greedyStep in Hkeep |- *.
  destruct (has (matchedRef st) (refIdx p0)) eqn:Er.
  - apply has_In in Er. rewrite Hr, <- in_rev in Er. apply in_map_iff in Er.
    destruct Er as (q & Eq & Hq). exists q. split; [now apply Hkeep|].
    split; [apply Hdom; [exact Hq|now left]|now left].
  - destruct (has (matchedSpoken st) (spokenIdx p0)) eqn:Es.
    + apply has_In in Es. rewrite Hsp, <- in_rev in Es. apply in_map_iff in Es.
      destruct Es as (q & Eq & Hq). exists q. split; [now apply Hkeep|].
      split; [apply Hdom; [exact Hq|now left]|now right].
    + cbn [negb andb] in *.
      destruct (Z.leb_spec MIN_SIMILARITY_THRESHOLD (pairSimilarity p0)); [|lia].
      exists p0. split; [apply Hkeep; cbn [matches]; apply in_or_app; right; now left|].
      split; [lia|now left].
Qed.

Lemma in_candidates r s i j :
  (i < length r)%nat -> (j < length s)%nat ->
  In (mkPair i j (calculateWordSimilarity (word r i) (word s j))) (candidates r s).
Proof.
  intros Hi Hj. unfold candidates.
  apply (Permutation_in _ (Permutation_sym (sortDesc_perm _))).
  apply in_allPairs. cbn [refIdx spokenIdx pairSimilarity].
  now rewrite matrixAt_similarity.
Qed.

Lemma Inv_weaken src st : Inv src st -> Inv (fun _ => True) st.
Proof.
  intros [Hr Hs Hnr Hns Hsrc]. constructor; auto.
  eapply Forall_impl; [|exact Hsrc]. intros p [_ H]. auto.
Qed.

Lemma matches_dominate r s i j :
  (i < length r)%nat -> (j < length s)%nat ->
  MIN_SIMILARITY_THRESHOLD <= calculateWordSimilarity (word r i) (word s j) ->
  exists q, In q (matches (greedy (candidates r s)))
            /\ calculateWordSimilarity (word r i) (word s j) <= pairSimilarity q
            /\ (refIdx q = i \/ spokenIdx q = j).
Proof.
  intros Hi Hj Hge.
  apply (greedy_dominates (candidates r s) (sortDesc_sorted _) (mkState [] [] []))
    with (p := mkPair i j (calculateWordSimilarity (word r i) (word s j))).
  - constructor; simpl; try reflexivity; constructor.
  - intros q p [].
  - now apply in_candidates.
  - exact Hge.
Qed.

Lemma in_trace_Missing r s i :
  In (Missing i) (alignTrace r s) -> s <> [] ->
  findMatch (matches (greedy (candidates r s))) i = None.
Proof.
  intros Hin Hs. pose proof (in_trace_bounds _ _ _ Hin) as Hi. cbv beta iota in Hi.
  assert (Hr : r <> []) by (destruct r; simpl in Hi; [lia|discriminate]).
  rewrite alignTrace_general in Hin by assumption.
  apply in_app_or in Hin. destruct Hin as [Hin|Hin].
  - apply in_map_iff in Hin. destruct Hin as (k & E & _). unfold refTag in E.
    destruct (findMatch _ k) eqn:F; [discriminate|]. now inversion E; subst.
  - apply in_map_iff in Hin. destruct Hin as (k & E & _). discriminate.
Qed.

Lemma in_trace_Extra_inv r s j :
  In (Extra j) (alignTrace r s) -> r <> [] ->
  ~ In j (matchedSpoken (greedy (candidates r s))).
Proof.
  intros Hin Hr. pose proof (in_trace_bounds _ _ _ Hin) as Hj. cbv beta iota in Hj.
  assert (Hs : s <> []) by (destruct s; simpl in Hj; [lia|discriminate]).
  rewrite alignTrace_general in Hin by assumption.
  apply in_app_or in Hin. destruct Hin as [Hin|Hin].
  - apply in_map_iff in Hin. destruct Hin as (k & E & _). unfold refTag in E.
    destruct (findMatch _ k); discriminate.
  - apply in_map_iff in Hin. destruct Hin as (k & E & Hk). inversion E; subst.
    apply filter_In in Hk. destruct Hk as [_ Hk].
    now apply negb_true_iff, has_false in Hk.
Qed.

(** X8. The alignment leaves no better pair unused: for every reference
    token and spoken token whose similarity reaches the threshold, one of
    the two is matched, with a similarity at least as high. In
    particular a token reported missing and a token reported extra are
    always less than 30 similar. *)
Theorem no_blocking_pair (referenceWords spokenWords : list jsstring) :
  let trace := alignTrace referenceWords spokenWords in
  (forall i j,
      (i < length referenceWords)%nat -> (j < length spokenWords)%nat ->
      let v := calculateWordSimilarity (word referenceWords i) (word spokenWords j) in
      MIN_SIMILARITY_THRESHOLD <= v ->
      (exists j' v', In (Matched i j' v') trace /\ v <= v')
      \/ (exists i' v', In (Matched i' j v') trace /\ v <= v'))
  /\ (forall i j,
        In (Missing i) trace -> In (Extra j) trace ->
        calculateWordSimilarity (word referenceWords i) (word spokenWords j)
        < MIN_SIMILARITY_THRESHOLD).
Proof.
  intros trace. subst trace. split.
  - intros i j Hi Hj v Hge.
    destruct (matches_dominate _ _ i j Hi Hj Hge) as (q & Hq & Hv & [E|E]).
    + left. exists (spokenIdx q), (pairSimilarity q). split; [|exact Hv].
      rewrite <- E. now apply in_trace_matched_pair.
    + right. exists (refIdx q), (pairSimilarity q). split; [|exact Hv].
      rewrite <- E. now apply in_trace_matched_pair.
  - intros i j Hm He.
    pose proof (in_trace_bounds _ _ _ Hm) as Hi.
    pose proof (in_trace_bounds _ _ _ He) as Hj. cbv beta iota in Hi, Hj.
    assert (Hr : referenceWords <> [])
      by (destruct referenceWords; simpl in Hi; [lia|discriminate]).
    assert (Hs : spokenWords <> [])
      by (destruct spokenWords; simpl in Hj; [lia|discriminate]).
    apply Z.nle_gt. intros Hge.
    destruct (matches_dominate _ _ i j Hi Hj Hge) as (q & Hq & _ & [E|E]).
    + pose proof (in_trace_Missing _ _ _ Hm Hs) as Hnone.
      destruct (matches_inv referenceWords spokenWords) as [_ _ Hnr _ _].
      rewrite <- E, (findMatch_In _ q Hnr Hq) in Hnone. discriminate.
    + apply (in_trace_Extra_inv _ _ _ He Hr).
      destruct (matches_inv referenceWords spokenWords) as [_ Hsp _ _ _].
      rewrite Hsp, <- in_rev, <- E. now apply in_map.
Qed.

Lemma no_blocking_pair_witness :
  (exists j' v', In (Matched 2 j' v') (alignTrace Sample.reference1 Sample.spoken1)
                 /\ 67 <= v')
  \/ (exists i' v', In (Matched i' 2 v') (alignTrace Sample.reference1 Sample.spoken1)
                    /\ 67 <= v').
Proof.
  destruct (no_blocking_pair Sample.reference1 Sample.spoken1) as [H _].
  apply (H 2%nat 2%nat); [simpl; lia|simpl; lia|vm_compute; discriminate].
Defined.

(* ================================================================== *)
(** * Ranges, counts and the reference column *)

Lemma alignWords_scores r s :
  Forall (fun e => similarity e = 0 \/ 30 <= similarity e <= 100) (alignWords r s).
Proof.
  rewrite alignWords_render. apply Forall_forall. intros e He.
  apply in_map_iff in He. destruct He as (t & <- & Ht).
  destruct t as [i j v|i|j]; cbn [render similarity]; [|now left..].
  right. apply in_trace_Matched in Ht. destruct Ht as (_ & _ & _ & Hge & ->).
  pose proof (calculateWordSimilarity_range (word r i) (word s j)).
  unfold MIN_SIMILARITY_THRESHOLD in Hge. lia.
Qed.

Lemma alignWords_words r s :
  Forall (fun w => w <> []) r -> Forall (fun w => w <> []) s ->
  Forall (fun e => refWord e <> [] /\ spokenWord e <> []) (alignWords r s).
Proof.
  intros Hr Hs. rewrite Forall_forall in Hr, Hs.
  rewrite alignWords_render. apply Forall_forall. intros e He.
  apply in_map_iff in He. destruct He as (t & <- & Ht).
  apply in_trace_bounds in Ht.
  destruct t as [i j v|i|j]; cbn [render refWord spokenWord].
  - destruct Ht. split; [apply Hr|apply Hs]; now apply word_In.
  - split; [apply Hr; now apply word_In|discriminate].
  - split; [discriminate|apply Hs; now apply word_In].
Qed.

Section OverallRange.
Import Num NumFacts.
Local Open Scope Q_scope.

(** The mean of scores between 0 and 100 is between 0 and 100 after the
    rounding of the division and [Math.round], however many scores
    there are. *)
Lemma overallScoreOf_range wss :
  Forall (fun ws => (0 <= score ws <= 100)%Z) wss ->
  (0 <= overallScoreOf wss <= 100)%Z.
Proof.
  intros Hs. unfold overallScoreOf. destruct wss as [|ws wss]; [simpl; lia|].
  change (0 <? length (ws :: wss))%nat with true. cbv iota.
  rewrite totalScore_sum. pose proof (sumScores_bounds _ Hs) as Hb.
  set (n := Z.of_nat (length (ws :: wss))) in *.
  set (t := sumScores (ws :: wss)) in *.
  assert (Hn : (0 < n)%Z) by (unfold n; simpl length; lia).
  clearbody n t.
  assert (HN : 0 < inject_Z n) by (change 0 with (inject_Z 0); now rewrite <- Zlt_Qlt).
  assert (Hx0 : 0 <= inject_Z t / inject_Z n).
  { apply Qle_shift_div_l; [exact HN|]. rewrite Qmult_0_l.
    change 0 with (inject_Z 0). rewrite <- Zle_Qle. lia. }
  assert (Hx100 : inject_Z t / inject_Z n <= 100).
  { apply Qle_shift_div_r; [exact HN|].
    change 100 with (inject_Z 100). rewrite <- inject_Z_mult, <- Zle_Qle. lia. }
  unfold div. apply Math_round_range.
  - now apply round53_nonneg.
  - apply Qle_trans with (round53 100); [now apply round53_mono|].
    rewrite round53_100. apply Qle_refl.
Qed.

End OverallRange.

(** X9. Whatever the two texts, the result of the engine is in the range
    the response schema asks for: the overall score is between 0 and 100,
    every word score is 0 or between 30 and 100, and no entry has an
    empty word or an empty transcribed word. *)
Theorem result_in_schema_range (normalizeNFC toLowerCase : jsstring -> jsstring)
        (transcriptionText referenceText : jsstring) :
  let res := calculateLevenshteinScores normalizeNFC toLowerCase
                                        transcriptionText referenceText in
  0 <= overallScore res <= 100
  /\ Forall (fun ws => (score ws = 0 \/ 30 <= score ws <= 100)
                       /\ wsWord ws <> [] /\ transcribedWord ws <> [])
            (wordScores res).
Proof.
  intros res. subst res. unfold calculateLevenshteinScores.
  cbn [overallScore wordScores].
  set (r := splitIntoWords normalizeNFC toLowerCase referenceText).
  set (s := splitIntoWords normalizeNFC toLowerCase transcriptionText).
  pose proof (alignWords_scores r s) as Hsc.
  assert (Hne : forall text, Forall (fun w => w <> [])
                                    (splitIntoWords normalizeNFC toLowerCase text)).
  { intros text. apply Forall_forall. intros w Hw.
    rewrite splitIntoWords_nonEmptyWords in Hw. now apply in_nonEmptyWords in Hw. }
  pose proof (alignWords_words r s (Hne _) (Hne _)) as Hw.
  split.
  - apply overallScoreOf_range. apply Forall_map.
    eapply Forall_impl; [|exact Hsc]. intros e He. cbv beta in He.
    cbn [toWordScore score]. lia.
  - apply Forall_map. rewrite Forall_forall in Hsc, Hw |- *.
    intros e He. cbn [toWordScore score wsWord transcribedWord].
    split; [now apply Hsc|now apply Hw].
Qed.

Lemma length_refIndices tr :
  length (refIndices tr)
  = (length (filter isMatched tr) + length (filter isMissing tr))%nat.
Proof. induction tr as [|[] tr IH]; simpl; lia. Qed.

Lemma length_spokenIndices tr :
  length (spokenIndices tr)
  = (length (filter isMatched tr) + length (filter isExtraTag tr))%nat.
Proof. induction tr as [|[] tr IH]; simpl; lia. Qed.

Lemma length_kinds tr :
  length tr
  = (length (filter isMatched tr) + length (filter isMissing tr)
     + length (filter isExtraTag tr))%nat.
Proof. induction tr as [|[] tr IH]; simpl; lia. Qed.

Lemma trace_counts r s :
  (length (filter isMatched (alignTrace r s))
   + length (filter isMissing (alignTrace r s)) = length r)%nat
  /\ (length (filter isMatched (alignTrace r s))
      + length (filter isExtraTag (alignTrace r s)) = length s)%nat.
Proof.
  rewrite <- length_refIndices, <- length_spokenIndices.
  rewrite partition_ref, (Permutation_length (partition_spoken r s)).
  now rewrite !length_seq.
Qed.

(** X10. With k matched pairs, the alignment of m reference tokens and n
    spoken tokens has m - k missing entries, n - k extra entries and
    m + n - k entries in all; k is at most the smaller of m and n, so
    the alignment has between max(m, n) and m + n entries. *)
Theorem alignment_counts (referenceWords spokenWords : list jsstring) :
  let trace := alignTrace referenceWords spokenWords in
  let m := length referenceWords in
  let n := length spokenWords in
  let k := length (filter isMatched trace) in
  (k <= Nat.min m n)%nat
  /\ length (filter isMissing trace) = (m - k)%nat
  /\ length (filter isExtraTag trace) = (n - k)%nat
  /\ length (alignWords referenceWords spokenWords) = (m + n - k)%nat
  /\ (Nat.max m n <= length (alignWords referenceWords spokenWords) <= m + n)%nat.
Proof.
  cbv zeta. destruct (trace_counts referenceWords spokenWords) as [Hr Hs].
  rewrite alignWords_render, length_map.
  rewrite (length_kinds (alignTrace referenceWords spokenWords)). lia.
Qed.

Lemma split_at {A} (l1 l2 : list A) k :
  k = length l1 -> firstn k (l1 ++ l2) = l1 /\ skipn k (l1 ++ l2) = l2.
Proof.
  intros ->. rewrite firstn_app, skipn_app, firstn_all, skipn_all, Nat.sub_diag.
  cbn [firstn skipn app]. now rewrite app_nil_r.
Qed.

(** The alignment is a part for the reference tokens followed by a part
    of extra entries. *)
Lemma alignWords_split r s :
  exists refPart extraPart,
    alignWords r s = refPart ++ extraPart
    /\ map refWord refPart = r
    /\ Forall (fun e => refWord e = extraMark /\ similarity e = 0
                        /\ In (spokenWord e) s) extraPart.
Proof.
  destruct r as [|a r], s as [|b s].
  - exists [], []. repeat split; constructor.
  - exists [], (map (fun w => mkEntry extraMark w 0) (b :: s)).
    split; [reflexivity|]. split; [reflexivity|].
    apply Forall_forall. intros e He. apply in_map_iff in He.
    destruct He as (w & <- & Hw). cbn. auto.
  - exists (map (fun w => mkEntry w missingMark 0) (a :: r)), [].
    split; [now rewrite app_nil_r|]. rewrite map_map. cbn [refWord].
    split; [apply map_id|constructor].
  - rewrite alignWords_general by discriminate.
    set (f := refEntry (a :: r) (b :: s) _).
    set (x := map (extraEntry (b :: s)) _).
    exists (map f (seq 0 (length (a :: r)))), x. split; [reflexivity|]. split.
    + rewrite map_map. transitivity (map (fun w : jsstring => w) (a :: r));
        [|apply map_id].
      etransitivity; [|apply (map_word_seq (fun w => w) (a :: r))].
      apply map_ext. intros i. unfold f, refEntry.
      now destruct (findMatch _ i).
    + unfold x. apply Forall_forall. intros e He. apply in_map_iff in He.
      destruct He as (j & <- & Hj). apply filter_In in Hj. destruct Hj as [Hj _].
      apply in_seq in Hj. unfold extraEntry. cbn [refWord similarity spokenWord].
      repeat split. apply word_In. lia.
Qed.

(** X11. The reference column of the alignment is the reference token
    list itself: the first m entries carry the reference tokens in their
    order, and every later entry is an extra entry for one of the spoken
    tokens, with score 0. *)
Theorem reference_column (referenceWords spokenWords : list jsstring) :
  let m := length referenceWords in
  let a := alignWords referenceWords spokenWords in
  map refWord (firstn m a) = referenceWords
  /\ Forall (fun e => refWord e = extraMark /\ similarity e = 0
                      /\ In (spokenWord e) spokenWords)
            (skipn m a).
Proof.
  cbv zeta.
  destruct (alignWords_split referenceWords spokenWords)
    as (refPart & extraPart & -> & Eref & Hextra).
  destruct (split_at refPart extraPart (length referenceWords)) as [E1 E2];
    [now rewrite <- Eref, length_map|].
  rewrite E1, E2. now split.
Qed.

(* ================================================================== *)
(** * The same tokens in another order *)

Lemma filter_length_perm {A} (f : A -> bool) l l' :
  Permutation l l' -> length (filter f l) = length (filter f l').
Proof.
  induction 1 as [|x l l' _ IH|x y l|l l' l'' _ IH1 _ IH2]; simpl.
  - reflexivity.
  - destruct (f x); simpl; now rewrite IH.
  - destruct (f x), (f y); reflexivity.
  - congruence.
Qed.

Lemma filter_map_comm {A B} (g : A -> B) (f : B -> bool) l :
  filter f (map g l) = map g (filter (fun a => f (g a)) l).
Proof.
  induction l as [|a l IH]; [reflexivity|]. simpl.
  destruct (f (g a)); simpl; now rewrite IH.
Qed.

Lemma count_positions (f : jsstring -> bool) ws :
  length (filter (fun k => f (word ws k)) (seq 0 (length ws)))
  = length (filter f ws).
Proof.
  assert (E : map (word ws) (seq 0 (length ws)) = ws).
  { transitivity (map (fun w => w) ws);
      [apply (map_word_seq (fun w => w) ws)|apply map_id]. }
  transitivity (length (filter f (map (word ws) (seq 0 (length ws)))));
    [|now rewrite E].
  now rewrite filter_map_comm, length_map.
Qed.

Lemma NoDup_map_filter {A B} (g : A -> B) (f : A -> bool) l :
  NoDup (map g l) -> NoDup (map g (filter f l)).
Proof.
  induction l as [|a l IH]; simpl; [auto|].
  intros H. inversion H as [|? ? Hn Hd]; subst.
  destruct (f a); [|now apply IH].
  simpl. constructor; [|now apply IH].
  intros Hin. apply Hn. apply in_map_iff in Hin.
  destruct Hin as (x & E & Hx). apply filter_In in Hx.
  apply in_map_iff. exists x. tauto.
Qed.

Lemma filter_out_shorter (i : nat) l :
  In i l -> (length (filter (fun k => negb (k =? i)%nat) l) < length l)%nat.
Proof.
  induction l as [|k l IH]; simpl; [tauto|].
  intros [->|H].
  - rewrite Nat.eqb_refl. simpl.
    pose proof (filter_length_le (fun k => negb (k =? i)%nat) l). lia.
  - specialize (IH H). destruct (k =? i)%nat; simpl; lia.
Qed.

(** When the spoken tokens are the reference tokens in another order,
    every reference token is matched with similarity 100: otherwise the
    spoken copies of that token would all be taken by other reference
    positions holding the same token, one too few. *)
Lemma permuted_all_matched r s i :
  Permutation r s ->
  Forall (fun w => (length w < 200)%nat) r ->
  (i < length r)%nat ->
  exists q, In q (matches (greedy (candidates r s)))
            /\ refIdx q = i /\ pairSimilarity q = 100.
Proof.
  intros Hperm Hshort Hi.
  set (ms := matches (greedy (candidates r s))).
  set (w := word r i).
  pose proof (Permutation_Forall Hperm Hshort) as Hshort'.
  rewrite Forall_forall in Hshort, Hshort'.
  destruct (matches_inv r s) as [_ _ Hnr Hns Hsrc]. fold ms in Hnr, Hns, Hsrc.
  rewrite Forall_forall in Hsrc.
  destruct (existsb (fun q => (refIdx q =? i)%nat && (pairSimilarity q =? 100)) ms)
    eqn:Ex.
  { apply existsb_exists in Ex. destruct Ex as (q & Hq & E).
    apply andb_true_iff in E. destruct E as [E1 E2].
    apply Nat.eqb_eq in E1. apply Z.eqb_eq in E2. exists q. auto. }
  exfalso.
  assert (Hno : forall q, In q ms -> refIdx q = i -> pairSimilarity q = 100 -> False).
  { intros q Hq E1 E2. enough (true = false) by discriminate. rewrite <- Ex.
    symmetry. apply existsb_exists. exists q. split; [exact Hq|].
    now rewrite E1, E2, Nat.eqb_refl. }
  set (A := filter (fun k => jsEqb (word r k) w) (seq 0 (length r))).
  set (B := filter (fun j => jsEqb (word s j) w) (seq 0 (length s))).
  set (Mw := filter (fun q => jsEqb (word s (spokenIdx q)) w
                              && (pairSimilarity q =? 100)) ms).
  assert (HAB : length A = length B).
  { pose proof (count_positions (fun x => jsEqb x w) r) as Cr.
    pose proof (count_positions (fun x => jsEqb x w) s) as Cs.
    cbv beta in Cr, Cs. unfold A, B.
    etransitivity; [exact Cr|]. etransitivity; [|symmetry; exact Cs].
    now apply filter_length_perm. }
  assert (H1 : incl B (map spokenIdx Mw)).
  { intros j Hj. apply filter_In in Hj. destruct Hj as [Hj Ew].
    apply in_seq in Hj. apply jsEqb_eq in Ew.
    assert (Hsim : calculateWordSimilarity (word r i) (word s j) = 100).
    { rewrite Ew. apply calculateWordSimilarity_same. }
    assert (Hj' : (j < length s)%nat) by lia.
    assert (Hge : MIN_SIMILARITY_THRESHOLD
                  <= calculateWordSimilarity (word r i) (word s j))
      by (rewrite Hsim; unfold MIN_SIMILARITY_THRESHOLD; lia).
    destruct (matches_dominate r s i j Hi Hj' Hge) as (q & Hq & Hv & [E|E]).
    - exfalso. apply (Hno q Hq E). fold ms in Hq.
      destruct (Hsrc q Hq) as [(_ & _ & Eq) _].
      pose proof (calculateWordSimilarity_range (word r (refIdx q)) (word s (spokenIdx q))).
      lia.
    - fold ms in Hq. apply in_map_iff. exists q. split; [exact E|].
      apply filter_In. split; [exact Hq|].
      rewrite E. apply andb_true_iff. split; [now apply jsEqb_eq|].
      apply Z.eqb_eq.
      destruct (Hsrc q Hq) as [(_ & _ & Eq) _].
      pose proof (calculateWordSimilarity_range (word r (refIdx q)) (word s (spokenIdx q))).
      lia. }
  assert (H2 : incl (map refIdx Mw) (filter (fun k => negb (k =? i)%nat) A)).
  { intros k Hk. apply in_map_iff in Hk. destruct Hk as (q & <- & Hq).
    apply filter_In in Hq. destruct Hq as [Hq E].
    apply andb_true_iff in E. destruct E as [Ew E100].
    apply jsEqb_eq in Ew. apply Z.eqb_eq in E100.
    destruct (Hsrc q Hq) as [(Hqi & Hqj & Eq) _].
    apply filter_In. split.
    - apply filter_In. split; [apply in_seq; split; [apply Nat.le_0_l|exact Hqi]|].
      apply jsEqb_eq. rewrite <- Ew. apply similarity_100_equal.
      + apply Hshort. now apply word_In.
      + apply Hshort'. now apply word_In.
      + congruence.
    - apply negb_true_iff, Nat.eqb_neq. intros E. exact (Hno q Hq E E100). }
  assert (HiA : In i A).
  { apply filter_In. split; [apply in_seq; lia|]. now apply jsEqb_eq. }
  pose proof (filter_out_shorter i A HiA) as H3.
  assert (HndB : NoDup B) by (apply NoDup_filter, seq_NoDup).
  pose proof (NoDup_incl_length HndB H1) as L1.
  assert (HndM : NoDup (map refIdx Mw)) by now apply NoDup_map_filter.
  pose proof (NoDup_incl_length HndM H2) as L2.
  rewrite !length_map in *. lia.
Qed.

Lemma spokenIndices_all_matched ms l :
  (forall i, In i l -> findMatch ms i <> None) ->
  length (spokenIndices (map (refTag ms) l)) = length l.
Proof.
  induction l as [|i l IH]; intros H; [reflexivity|].
  cbn [map]. change (refTag ms i :: map (refTag ms) l)
    with ([refTag ms i] ++ map (refTag ms) l).
  rewrite spokenIndices_app, length_app, IH by (intros; apply H; now right).
  unfold refTag. destruct (findMatch ms i) eqn:F; [reflexivity|].
  exfalso. apply (H i); [now left|exact F].
Qed.

Lemma alignWords_permuted r s :
  Permutation r s ->
  Forall (fun w => (length w < 200)%nat) r ->
  alignWords r s = map (fun w => mkEntry w w 100) r.
Proof.
  intros Hperm Hshort.
  destruct r as [|a r].
  { apply Permutation_nil in Hperm. now subst. }
  assert (Hs : s <> []).
  { intros ->. apply Permutation_sym, Permutation_nil in Hperm. discriminate. }
  pose proof (Permutation_length Hperm) as Hlen.
  pose proof (Permutation_Forall Hperm Hshort) as Hshort'.
  set (ms := matches (greedy (candidates (a :: r) s))).
  destruct (matches_inv (a :: r) s) as [_ Hsp Hnr _ Hsrc].
  fold ms in Hnr, Hsrc. rewrite Forall_forall in Hsrc.
  assert (Hall : forall i, (i < length (a :: r))%nat ->
                 exists q, findMatch ms i = Some q /\ pairSimilarity q = 100
                           /\ word s (spokenIdx q) = word (a :: r) i).
  { intros i Hi.
    destruct (permuted_all_matched (a :: r) s i Hperm Hshort Hi) as (q & Hq & E & E100).
    fold ms in Hq. exists q. split; [rewrite <- E; now apply findMatch_In|].
    split; [exact E100|].
    destruct (Hsrc q Hq) as [(Hqi & Hqj & Eq) _].
    symmetry. rewrite <- E. apply similarity_100_equal.
    - rewrite Forall_forall in Hshort. apply Hshort. now apply word_In.
    - rewrite Forall_forall in Hshort'. apply Hshort'. now apply word_In.
    - congruence. }
  rewrite alignWords_general by (assumption || discriminate).
  match goal with
  | |- context [map (extraEntry s) ?L] => assert (Hextra : L = [])
  end.
  { pose proof (Permutation_length (partition_spoken (a :: r) s)) as Hn.
    rewrite alignTrace_general, spokenIndices_app, length_app in Hn
      by (assumption || discriminate).
    fold ms in Hn. rewrite spokenIndices_all_matched, spokenIndices_Extra in Hn.
    - rewrite !length_seq in Hn. apply length_zero_iff_nil.
      unfold jsstring in *. lia.
    - intros i Hi. apply in_seq in Hi.
      destruct (Hall i) as (q & F & _); [unfold jsstring in *; lia|].
      rewrite F. discriminate. }
  rewrite Hextra. cbn [map]. rewrite app_nil_r. fold ms.
  etransitivity; [|apply (map_word_seq (fun w => mkEntry w w 100) (a :: r))].
  apply map_ext_in. intros i Hi. apply in_seq in Hi.
  destruct (Hall i) as (q & F & E100 & Ew); [unfold jsstring in *; lia|].
  unfold refEntry. now rewrite F, E100, Ew.
Qed.

(** X12. Word order does not matter: when the tokens of the transcription
    are the tokens of the reference text in another order (tokens of
    fewer than 200 code units, at least one), every reference token is
    reported with itself as the transcribed word and score 100, there is
    no missing and no extra entry, and the overall score is 100. *)
Theorem reordered_transcription_scores_100
        (normalizeNFC toLowerCase : jsstring -> jsstring)
        (transcriptionText referenceText : jsstring) :
  let referenceWords := splitIntoWords normalizeNFC toLowerCase referenceText in
  let transcribedWords := splitIntoWords normalizeNFC toLowerCase transcriptionText in
  let res := calculateLevenshteinScores normalizeNFC toLowerCase
                                        transcriptionText referenceText in
  Permutation referenceWords transcribedWords ->
  referenceWords <> [] ->
  Forall (fun w => (length w < 200)%nat) referenceWords ->
  wordScores res = map (fun w => mkWordScore w w 100) referenceWords
  /\ overallScore res = 100.
Proof.
  intros referenceWords transcribedWords res Hperm Hne Hshort.
  subst res. unfold calculateLevenshteinScores. cbn [wordScores overallScore].
  fold referenceWords transcribedWords.
  rewrite (alignWords_permuted _ _ Hperm Hshort), map_map. cbn [toWordScore].
  cbn [refWord spokenWord similarity].
  split; [reflexivity|].
  apply overallScoreOf_100.
  - destruct referenceWords; [congruence|discriminate].
  - apply Forall_map, Forall_forall. intros; reflexivity.
Qed.

Lemma reordered_transcription_witness :
  overallScore (calculateLevenshteinScores composeJCaron lowerBasic
                  Reading.exchanged Reading.reference) = 100.
Proof.
  apply (reordered_transcription_scores_100 composeJCaron lowerBasic
           Reading.exchanged Reading.reference).
  - vm_compute. apply perm_swap.
  - vm_compute. discriminate.
  - vm_compute. repeat constructor.
Defined.

(* ================================================================== *)
(** * The JSON object of a reply *)

Lemma fromFirstOpen_app pre rest :
  ~ In openBrace pre ->
  fromFirstOpen (pre ++ openBrace :: rest) = Some (openBrace :: rest).
Proof.
  induction pre as [|c pre IH]; intros H; simpl.
  - reflexivity.
  - destruct (N.eqb_spec c openBrace) as [->|_]; [exfalso; apply H; now left|].
    apply IH. intros Hin. apply H. now right.
Qed.

Lemma fromFirstOpen_Some s r :
  fromFirstOpen s = Some r ->
  exists pre rest, s = pre ++ r /\ r = openBrace :: rest /\ ~ In openBrace pre.
Proof.
  induction s as [|c s IH]; simpl; [discriminate|].
  destruct (N.eqb_spec c openBrace) as [->|NE].
  - intros E. inversion E; subst. exists [], s. auto.
  - intros E. destruct (IH E) as (pre & rest & -> & -> & Hpre).
    exists (c :: pre), rest. repeat split. intros [->|H]; auto.
Qed.

Lemma fromFirstOpen_None s : fromFirstOpen s = None <-> ~ In openBrace s.
Proof.
  induction s as [|c s IH]; simpl; [tauto|].
  destruct (N.eqb_spec c openBrace) as [->|NE].
  - split; [discriminate|]. intros H. exfalso. apply H. now left.
  - rewrite IH. split; [intros H [E|Hin]; auto|tauto].
Qed.

Lemma throughLastClose_None s : throughLastClose s = None <-> ~ In closeBrace s.
Proof.
  induction s as [|c s IH]; simpl; [tauto|].
  destruct (throughLastClose s) as [p|].
  - split; [discriminate|]. intros H. exfalso.
    assert (Hs : ~ In closeBrace s) by tauto.
    apply IH in Hs. discriminate.
  - destruct (N.eqb_spec c closeBrace) as [->|NE].
    + split; [discriminate|]. intros H. exfalso. apply H. now left.
    + split; [|reflexivity]. intros _ [E|Hin]; [congruence|].
      now apply (proj1 IH).
Qed.

Lemma throughLastClose_app body post :
  ~ In closeBrace post ->
  throughLastClose (body ++ closeBrace :: post) = Some (body ++ [closeBrace]).
Proof.
  intros H. apply throughLastClose_None in H.
  induction body as [|c body IH]; simpl.
  - rewrite H. reflexivity.
  - now rewrite IH.
Qed.

Lemma throughLastClose_Some s p :
  throughLastClose s = Some p ->
  exists body post, s = p ++ post /\ p = body ++ [closeBrace] /\ ~ In closeBrace post.
Proof.
  revert p. induction s as [|c s IH]; simpl; [discriminate|]. intros p.
  destruct (throughLastClose s) as [q|] eqn:E.
  - intros Ep. inversion Ep; subst.
    destruct (IH q eq_refl) as (body & post & -> & -> & Hpost).
    exists (c :: body), post. auto.
  - destruct (N.eqb_spec c closeBrace) as [->|NE]; [|discriminate].
    intros Ep. inversion Ep; subst. exists [], s. repeat split.
    now apply throughLastClose_None.
Qed.

Lemma first_open_suffix pre' rest pre tail :
  pre' ++ openBrace :: rest = pre ++ openBrace :: tail ->
  ~ In openBrace pre' ->
  exists mid, rest = mid ++ tail.
Proof.
  revert pre. induction pre' as [|d pre' IH]; intros pre E H.
  - destruct pre as [|c pre]; simpl in E; inversion E; subst.
    + now exists [].
    + exists (pre ++ [openBrace]). now rewrite <- app_assoc.
  - destruct pre as [|c pre]; simpl in E; inversion E; subst.
    + exfalso. apply H. now left.
    + apply (IH pre); [assumption|]. intros Hin. apply H. now right.
Qed.

(** X13. What the transcription stage hands to [JSON.parse]: the part of
    the reply from its first opening brace to its last closing brace,
    whatever surrounds it. The reply is refused as empty exactly when it
    is the empty string, and as unparsable exactly when it is not empty
    and no closing brace follows an opening one. *)
Theorem json_span_of_reply (text : jsstring) :
  (forall span,
      jsonTextOf text = inr span <->
      exists pre body post,
        text = pre ++ span ++ post
        /\ span = openBrace :: body ++ [closeBrace]
        /\ ~ In openBrace pre /\ ~ In closeBrace post)
  /\ (jsonTextOf text = inl EmptyResponse <-> text = [])
  /\ (jsonTextOf text = inl FailedToParse <->
      text <> []
      /\ forall pre body post, text <> pre ++ openBrace :: body ++ closeBrace :: post).
Proof.
  assert (Hfwd : forall span, matchJsonSpan text = Some span ->
            exists pre body post,
              text = pre ++ span ++ post
              /\ span = openBrace :: body ++ [closeBrace]
              /\ ~ In openBrace pre /\ ~ In closeBrace post).
  { intros span. unfold matchJsonSpan.
    destruct (fromFirstOpen text) as [[|b rest]|] eqn:E; try discriminate.
    destruct (fromFirstOpen_Some _ _ E) as (pre & rest' & -> & Er & Hpre).
    inversion Er; subst b rest'.
    destruct (throughLastClose rest) as [p|] eqn:Ep; [|discriminate].
    cbn [option_map]. intros Es. inversion Es; subst span.
    destruct (throughLastClose_Some _ _ Ep) as (body & post & -> & -> & Hpost).
    exists pre, body, post. repeat split; auto. }
  assert (Hbwd : forall pre body post,
            ~ In openBrace pre -> ~ In closeBrace post ->
            matchJsonSpan (pre ++ openBrace :: body ++ closeBrace :: post)
            = Some (openBrace :: body ++ [closeBrace])).
  { intros pre body post Hpre Hpost. unfold matchJsonSpan.
    rewrite fromFirstOpen_app by exact Hpre.
    now rewrite throughLastClose_app by exact Hpost. }
  assert (Hnone : matchJsonSpan text = None ->
            forall pre body post,
              text <> pre ++ openBrace :: body ++ closeBrace :: post).
  { intros Hn pre body post ->. unfold matchJsonSpan in Hn.
    destruct (fromFirstOpen (pre ++ openBrace :: body ++ closeBrace :: post))
      as [[|b rest]|] eqn:E.
    - apply fromFirstOpen_Some in E. destruct E as (? & ? & _ & ? & _). discriminate.
    - destruct (fromFirstOpen_Some _ _ E) as (pre' & rest' & Et & Er & Hpre').
      inversion Er; subst b rest'.
      destruct (throughLastClose rest) as [p|] eqn:Ep; [discriminate|].
      apply throughLastClose_None in Ep. apply Ep.
      destruct (first_open_suffix _ _ _ _ (eq_sym Et) Hpre') as (mid & ->).
      apply in_or_app. right. apply in_or_app. right. now left.
    - apply fromFirstOpen_None in E. apply E, in_or_app. right. now left. }
  split; [|split].
  - intros span. split.
    + unfold jsonTextOf. destruct text as [|c t]; [discriminate|].
      destruct (matchJsonSpan (c :: t)) as [sp|] eqn:E; [|discriminate].
      intros Es. inversion Es; subst sp. now apply Hfwd.
    + intros (pre & body & post & Et & Es & Hpre & Hpost).
      assert (Em : matchJsonSpan text = Some span).
      { rewrite Et, Es. cbn [app]. rewrite <- app_assoc. cbn [app].
        rewrite Hbwd by assumption. reflexivity. }
      unfold jsonTextOf. rewrite Em.
      destruct text; [|reflexivity]. discriminate.
  - unfold jsonTextOf. destruct text as [|c t]; [tauto|].
    destruct (matchJsonSpan (c :: t)); split; discriminate.
  - unfold jsonTextOf. destruct text as [|c t].
    + split; [discriminate|intros [H _]; congruence].
    + destruct (matchJsonSpan (c :: t)) as [sp|] eqn:E.
      * split; [discriminate|]. intros [_ H]. exfalso.
        destruct (Hfwd sp eq_refl) as (pre & body & post & Et & -> & _).
        apply (H pre body post). rewrite Et. cbn [app].
        rewrite <- app_assoc. reflexivity.
      * split; [|reflexivity]. intros _. split; [discriminate|].
        now apply Hnone.
Qed.

(* ================================================================== *)
(** * The analyze-v2 route and the results component *)

Lemma route_trace nfc lower transcription referenceText transliteration :
  routeWordScores nfc lower transcription referenceText transliteration
  = map (fun t => routeEntry nfc lower referenceText transliteration
                    (toWordScore (render (splitIntoWords nfc lower referenceText)
                                         (splitIntoWords nfc lower transcription) t)))
        (alignTrace (splitIntoWords nfc lower referenceText)
                    (splitIntoWords nfc lower transcription)).
Proof.
  unfold routeWordScores, calculateLevenshteinScores. cbn [wordScores].
  now rewrite alignWords_render, !map_map.
Qed.

Lemma tokens_nonempty nfc lower text :
  Forall (fun w => w <> []) (splitIntoWords nfc lower text).
Proof.
  apply Forall_forall. intros w. rewrite splitIntoWords_nonEmptyWords. intros H.
  now apply in_nonEmptyWords in H.
Qed.

Lemma display_cases nfc lower referenceText transliteration ws :
  transliterationDisplay nfc lower referenceText transliteration ws = wsWord ws
  \/ (In (transliterationDisplay nfc lower referenceText transliteration ws)
         (translitWords transliteration)
      /\ transliterationDisplay nfc lower referenceText transliteration ws <> []).
Proof.
  unfold transliterationDisplay.
  destruct (jsEqb (wsWord ws) extraMark); [now left|]. cbv zeta.
  destruct (indexOf _ _) as [i|]; [|now left].
  destruct (nth_error (translitWords transliteration) i) as [t|] eqn:E; [|now left].
  destruct t as [|c t]; [now left|]. right.
  split; [|discriminate]. eapply nth_error_In. exact E.
Qed.

Lemma forget_routeEntry nfc lower referenceText transliteration ws :
  forgetTransliteration (routeEntry nfc lower referenceText transliteration ws) = ws.
Proof. now destruct ws. Qed.

(** X14. The route changes nothing in the scoring: without their
    transliterations its word scores are the engine's, entry by entry.
    The transliteration it adds is never empty; it is a word of the
    transliteration text or, failing that, the entry's own word. *)
Theorem route_keeps_scores (normalizeNFC toLowerCase : jsstring -> jsstring)
        (transcription referenceText transliteration : jsstring) :
  let res := calculateLevenshteinScores normalizeNFC toLowerCase
                                        transcription referenceText in
  let out := routeWordScores normalizeNFC toLowerCase
                             transcription referenceText transliteration in
  map forgetTransliteration out = wordScores res
  /\ Forall (fun e => rsTransliteration e <> []
                      /\ (rsTransliteration e = rsWord e
                          \/ In (rsTransliteration e) (translitWords transliteration)))
            out.
Proof.
  cbv zeta. split.
  - unfold routeWordScores. rewrite map_map.
    erewrite map_ext; [apply map_id|]. intros ws. apply forget_routeEntry.
  - unfold routeWordScores, calculateLevenshteinScores. cbn [wordScores].
    rewrite map_map. apply Forall_map.
    pose proof (alignWords_words _ _ (tokens_nonempty normalizeNFC toLowerCase referenceText)
                                 (tokens_nonempty normalizeNFC toLowerCase transcription))
      as Hw.
    eapply Forall_impl; [|exact Hw]. intros a [Ha _].
    cbn [routeEntry rsTransliteration rsWord].
    destruct (display_cases normalizeNFC toLowerCase referenceText transliteration
                            (toWordScore a)) as [E|[Hin Hne]].
    + rewrite E. cbn [toWordScore wsWord]. auto.
    + auto.
Qed.

Lemma indexOf_nth l k :
  NoDup l -> (k < length l)%nat -> indexOf (nth k l []) l = Some k.
Proof.
  revert k. induction l as [|a l IH]; intros k Hnd Hk; [simpl in Hk; lia|].
  inversion Hnd as [|? ? Hna Hnd']; subst.
  destruct k as [|k]; simpl.
  - now rewrite (proj2 (jsEqb_eq a a) eq_refl).
  - simpl in Hk. destruct (jsEqb a (nth k l [])) eqn:E.
    + apply jsEqb_eq in E. exfalso. apply Hna. rewrite E. apply nth_In. lia.
    + rewrite IH by (assumption || lia). reflexivity.
Qed.

Lemma nativeWords_tokens nfc lower referenceText :
  lower (nfc referenceText) = nfc referenceText ->
  nativeWords nfc referenceText = splitIntoWords nfc lower referenceText.
Proof.
  intros H. rewrite splitIntoWords_nonEmptyWords, normalizeText_tidy, H.
  reflexivity.
Qed.

(** X15. How the route pairs the words with the transliteration, for a
    reference text that the two Unicode passes leave as it is after NFC,
    with distinct tokens, none of them the extra mark: the k-th entry is
    the k-th reference token, shown with the k-th word of the
    transliteration, or with the token itself when the transliteration
    has too few words. *)
Theorem transliteration_pairing (normalizeNFC toLowerCase : jsstring -> jsstring)
        (transcription referenceText transliteration : jsstring) :
  let referenceWords := splitIntoWords normalizeNFC toLowerCase referenceText in
  let shown := translitWords transliteration in
  toLowerCase (normalizeNFC referenceText) = normalizeNFC referenceText ->
  Forall (fun w => toLowerCase (normalizeNFC w) = w) referenceWords ->
  NoDup referenceWords ->
  ~ In extraMark referenceWords ->
  forall k, (k < length referenceWords)%nat ->
    exists e,
      nth_error (routeWordScores normalizeNFC toLowerCase
                                 transcription referenceText transliteration) k
      = Some e
      /\ rsWord e = word referenceWords k
      /\ rsTransliteration e
         = if (k <? length shown)%nat then word shown k else word referenceWords k.
Proof.
  intros rw shown Hfix Htok Hnd Hmark k Hk.
  unfold routeWordScores, calculateLevenshteinScores. cbn [wordScores]. fold rw.
  set (sw := splitIntoWords normalizeNFC toLowerCase transcription).
  destruct (alignWords_split rw sw) as (refPart & extraPart & -> & Eref & _).
  assert (Hlen : length refPart = length rw) by now rewrite <- Eref, length_map.
  destruct (nth_error refPart k) as [a|] eqn:Ea;
    [|apply nth_error_None in Ea; lia].
  assert (Ew : refWord a = word rw k).
  { unfold word. rewrite <- Eref.
    apply (map_nth_error refWord) in Ea. symmetry.
    now apply nth_error_nth. }
  exists (routeEntry normalizeNFC toLowerCase referenceText transliteration
                     (toWordScore a)).
  split; [|split].
  - rewrite map_map.
    apply (map_nth_error (fun x => routeEntry normalizeNFC toLowerCase referenceText
                                     transliteration (toWordScore x))).
    rewrite nth_error_app1 by lia. exact Ea.
  - exact Ew.
  - cbn [routeEntry rsTransliteration]. unfold transliterationDisplay.
    cbn [toWordScore wsWord]. rewrite Ew.
    assert (Hin : In (word rw k) rw) by now apply word_In.
    destruct (jsEqb (word rw k) extraMark) eqn:Ex.
    { apply jsEqb_eq in Ex. exfalso. apply Hmark. now rewrite <- Ex. }
    cbv zeta. rewrite Forall_forall in Htok. rewrite (Htok _ Hin).
    unfold nativeWordsNormalized. rewrite (nativeWords_tokens _ _ _ Hfix). fold rw.
    assert (Emap : map (fun w => toLowerCase (normalizeNFC w)) rw = rw).
    { erewrite map_ext_in; [apply map_id|]. intros w Hw. now apply Htok. }
    rewrite Emap. unfold word at 1. rewrite indexOf_nth by assumption.
    fold shown. destruct (Nat.ltb_spec k (length shown)) as [Hlt|Hge].
    + destruct (nth_error shown k) as [t|] eqn:Et;
        [|apply nth_error_None in Et; lia].
      assert (Hne : t <> []).
      { apply nth_error_In in Et. unfold shown, translitWords in Et.
        now apply in_nonEmptyWords in Et. }
      destruct t as [|c t]; [congruence|].
      unfold word. symmetry. now apply nth_error_nth.
    + assert (Et : nth_error shown k = None) by now apply nth_error_None.
      now rewrite Et.
Qed.

Lemma transliteration_pairing_witness :
  exists e,
    nth_error (routeWordScores composeJCaron lowerBasic Reading.exchanged
                               Reading.reference Reading.transliteration) 1
    = Some e
    /\ rsWord e = Sample.main
    /\ rsTransliteration e = js "main"%string.
Proof.
  apply (transliteration_pairing composeJCaron lowerBasic Reading.exchanged
                                 Reading.reference Reading.transliteration).
  - reflexivity.
  - vm_compute. repeat constructor.
  - vm_compute. repeat constructor; simpl; intuition discriminate.
  - vm_compute. intuition discriminate.
  - vm_compute. lia.
Defined.

Lemma filter_nonempty_iff {A} (f : A -> bool) l :
  (0 <? length (filter f l))%nat = true <-> exists x, In x l /\ f x = true.
Proof.
  split.
  - destruct (filter f l) as [|x l'] eqn:E; [discriminate|]. intros _.
    exists x. apply filter_In. rewrite E. now left.
  - intros (x & Hx & Hf).
    assert (Hin : In x (filter f l)) by (apply filter_In; auto).
    destruct (filter f l); [destruct Hin|reflexivity].
Qed.

(** X16. When the tips stage runs: exactly when some reference token,
    other than a token that reads as the extra mark, is missing or
    matched with a similarity below 70. Every problem word sent to it is
    such a reference token; extra entries are never sent. *)
Theorem stage3_runs_iff (normalizeNFC toLowerCase : jsstring -> jsstring)
        (transcription referenceText transliteration : jsstring) :
  let referenceWords := splitIntoWords normalizeNFC toLowerCase referenceText in
  let transcribedWords := splitIntoWords normalizeNFC toLowerCase transcription in
  let trace := alignTrace referenceWords transcribedWords in
  let out := routeWordScores normalizeNFC toLowerCase
                             transcription referenceText transliteration in
  (stage3Runs out = true <->
   exists i, word referenceWords i <> extraMark
             /\ (In (Missing i) trace
                 \/ exists j v, In (Matched i j v) trace /\ v < 70))
  /\ Forall (fun pw => In (pwWord pw) referenceWords
                       /\ pwWord pw <> extraMark /\ pwScore pw < 70)
            (problemWords out).
Proof.
  intros rw sw trace out. subst out. rewrite route_trace. fold rw sw trace.
  set (h := fun t => routeEntry normalizeNFC toLowerCase referenceText transliteration
                       (toWordScore (render rw sw t))).
  set (P := fun ws => (rsScore ws <? 70) && negb (jsEqb (rsWord ws) extraMark)).
  assert (HP : forall t, P (h t) = true <->
               exists i, word rw i <> extraMark
                         /\ (t = Missing i \/ exists j v, t = Matched i j v /\ v < 70)).
  { intros t. unfold P, h. cbn [routeEntry rsScore rsWord toWordScore score wsWord].
    rewrite andb_true_iff, negb_true_iff, jsEqb_neq, Z.ltb_lt.
    destruct t as [i j v|i|j]; cbn [render similarity refWord].
    - split.
      + intros [Hv Hw]. exists i. split; [exact Hw|]. right. now exists j, v.
      + intros (i' & Hw & [E|(j' & v' & E & Hv)]); [discriminate|].
        inversion E; subst. auto.
    - split.
      + intros [_ Hw]. exists i. auto.
      + intros (i' & Hw & [E|(j' & v' & E & _)]); [|discriminate].
        inversion E; subst. split; [lia|exact Hw].
    - split.
      + intros [_ Hw]. congruence.
      + intros (i' & _ & [E|(j' & v' & E & _)]); discriminate. }
  split.
  - unfold stage3Runs, problemWords. rewrite length_map. fold P.
    rewrite filter_nonempty_iff. split.
    + intros (e & He & Hf). apply in_map_iff in He. destruct He as (t & <- & Ht).
      apply HP in Hf. destruct Hf as (i & Hw & [->|(j & v & -> & Hv)]).
      * exists i. auto.
      * exists i. split; [exact Hw|]. right. now exists j, v.
    + intros (i & Hw & [Ht|(j & v & Ht & Hv)]).
      * exists (h (Missing i)). split; [now apply in_map|].
        apply HP. exists i. auto.
      * exists (h (Matched i j v)). split; [now apply in_map|].
        apply HP. exists i. split; [exact Hw|]. right. now exists j, v.
  - unfold problemWords. fold P. apply Forall_map, Forall_forall.
    intros e He. apply filter_In in He. destruct He as [He Hf].
    apply in_map_iff in He. destruct He as (t & <- & Ht).
    pose proof (in_trace_bounds _ _ _ Ht) as Hb.
    pose proof Hf as Hf'. apply HP in Hf'.
    unfold P in Hf. apply andb_true_iff in Hf. destruct Hf as [Hv Hw].
    apply Z.ltb_lt in Hv. apply negb_true_iff, jsEqb_neq in Hw.
    cbn [pwWord pwScore]. split; [|split; assumption].
    destruct Hf' as (i & _ & [->|(j & v & -> & _)]);
      unfold h; cbn [routeEntry rsWord toWordScore wsWord render refWord];
      apply word_In; tauto.
Qed.

(** X17. The three groups of the results component are the three kinds
    of entries, provided no reference token reads as the extra mark and
    no transcribed token reads as the missing mark: the regular words are
    the matched entries, the missing words the missing entries and the
    extra words the extra entries, each in the order of the alignment. *)
Theorem groups_follow_kinds (normalizeNFC toLowerCase : jsstring -> jsstring)
        (transcription referenceText transliteration : jsstring) :
  let referenceWords := splitIntoWords normalizeNFC toLowerCase referenceText in
  let transcribedWords := splitIntoWords normalizeNFC toLowerCase transcription in
  let trace := alignTrace referenceWords transcribedWords in
  let out := routeWordScores normalizeNFC toLowerCase
                             transcription referenceText transliteration in
  let entry := fun t => toWordScore (render referenceWords transcribedWords t) in
  ~ In extraMark referenceWords ->
  ~ In missingMark transcribedWords ->
  map forgetTransliteration (regularWords out) = map entry (filter isMatched trace)
  /\ map forgetTransliteration (missingWords out) = map entry (filter isMissing trace)
  /\ map forgetTransliteration (extraWords out) = map entry (filter isExtraTag trace).
Proof.
  intros rw sw trace out entry Hr Hs. subst out. rewrite route_trace.
  fold rw sw trace.
  set (h := fun t => routeEntry normalizeNFC toLowerCase referenceText transliteration
                       (toWordScore (render rw sw t))).
  assert (Hforget : forall l, map forgetTransliteration (map h l) = map entry l).
  { intros l. rewrite map_map. apply map_ext. intros t. apply forget_routeEntry. }
  assert (Hrw : forall i, (i < length rw)%nat -> jsEqb (word rw i) extraMark = false).
  { intros i Hi. apply jsEqb_neq. intros E. apply Hr. rewrite <- E. now apply word_In. }
  assert (Hsw : forall j, (j < length sw)%nat -> jsEqb (word sw j) missingMark = false).
  { intros j Hj. apply jsEqb_neq. intros E. apply Hs. rewrite <- E. now apply word_In. }
  unfold regularWords, missingWords, extraWords.
  rewrite !filter_map_comm, !Hforget.
  repeat split; f_equal; apply filter_ext_in; intros t Ht;
    pose proof (in_trace_bounds _ _ _ Ht) as Hb;
    unfold h; cbn [routeEntry rsWord rsTranscribedWord toWordScore wsWord transcribedWord];
    destruct t as [i j v|i|j]; cbn [render refWord spokenWord isMatched isMissing isExtraTag].
  - destruct Hb as [Hi Hj]. now rewrite Hrw, Hsw.
  - rewrite Hrw by exact Hb. reflexivity.
  - reflexivity.
  - destruct Hb as [Hi Hj]. now rewrite Hsw.
  - reflexivity.
  - now rewrite Hsw.
  - destruct Hb as [Hi Hj]. now rewrite Hrw.
  - now rewrite Hrw.
  - reflexivity.
Qed.

Lemma groups_follow_kinds_witness :
  map forgetTransliteration
      (missingWords (routeWordScores composeJCaron lowerBasic Reading.firstOnly
                                     Reading.reference Reading.transliteration))
  = [mkWordScore Sample.main missingMark 0].
Proof.
  destruct (groups_follow_kinds composeJCaron lowerBasic Reading.firstOnly
                                Reading.reference Reading.transliteration)
    as (_ & H & _).
  - vm_compute. intuition discriminate.
  - vm_compute. intuition discriminate.
  - rewrite H. vm_compute. reflexivity.
Defined.




